(** * The SQL generator of the server (server/src/infra/sql-generator/index.ts)

    A shallow embedding of the one-shot batch script that boots the
    application, walks the repositories, invokes every method annotated
    with [@GenerateSql], and writes the captured statements to one file
    per repository, followed by the properties its specification states.

    Conventions of the embedding:
    - JavaScript strings are [string]s; identifiers are ASCII.
    - [async] code is sequential here: every call is awaited before the next
      one starts, so a promise is represented by its settled outcome.
    - The generator object, the reflect-metadata store, the database, the
      target directory and the console form one explicit state that an
      error-and-state monad threads through the methods of the class. *)

From Stdlib Require Import String Ascii List Arith Lia DecimalString.
From stdpp Require Import base option list strings gmap.

(** ** JavaScript string primitives used by the generator *)

Module Js.

(** The character class [[A-Z]]. *)
Definition isUpper (c : ascii) : bool :=
  Nat.leb 65 (nat_of_ascii c) && Nat.leb (nat_of_ascii c) 90.

(** The character class [[a-z]]. *)
Definition isLower (c : ascii) : bool :=
  Nat.leb 97 (nat_of_ascii c) && Nat.leb (nat_of_ascii c) 122.

(** [String.prototype.toLowerCase] on one ASCII character. *)
Definition toLowerCase (c : ascii) : ascii :=
  if isUpper c then ascii_of_nat (nat_of_ascii c + 32) else c.

(** [Array.prototype.join]. *)
Definition join (sep : string) (xs : list string) : string :=
  String.concat sep xs.

(** The string ['\n']. *)
Definition newline : string := String "010" "".

(** Concatenation of the strings of a list. *)
Definition flatten (xs : list string) : string :=
  fold_right String.append "" xs.

(** Rendering of a non-negative integer inside a template literal. *)
Definition ofNumber (n : nat) : string :=
  NilEmpty.string_of_uint (Nat.to_uint n).

(** Truthiness of an optional string: [undefined] and [''] are falsy. *)
Definition truthy (o : option string) : bool :=
  match o with
  | Some (String _ _) => true
  | _ => false
  end.

End Js.

(** ** File names (lines 159-160 of the source) *)

(** [s.replaceAll(/[A-Z]/g, (letter) => `.${letter.toLowerCase()}`)] *)
Fixpoint replaceAll_upper (s : string) : string :=
  match s with
  | EmptyString => EmptyString
  | String c rest =>
      if Js.isUpper c
      then String "." (String (Js.toLowerCase c) (replaceAll_upper rest))
      else String c (replaceAll_upper rest)
  end.

(** [s.replace('.', '')]: only the first occurrence of the pattern goes. *)
Fixpoint replace_dot (s : string) : string :=
  match s with
  | EmptyString => EmptyString
  | String c rest =>
      if Ascii.eqb c "." then rest else String c (replace_dot rest)
  end.

(** [const filename = repoName.replaceAll(...).replace('.', '')] *)
Definition filename (repoName : string) : string :=
  replace_dot (replaceAll_upper repoName).

(** [`${filename}.sql`], the name of the file inside the target directory. *)
Definition sqlFile (repoName : string) : string :=
  filename repoName +:+ ".sql".

(** The rule as the specification words it: a separator before each
    uppercase letter, the whole string in lowercase, a leading separator
    stripped, the fixed extension appended. *)
Module SpecRule.

Fixpoint insertSeparators (s : string) : string :=
  match s with
  | EmptyString => EmptyString
  | String c rest =>
      if Js.isUpper c
      then String "." (String c (insertSeparators rest))
      else String c (insertSeparators rest)
  end.

(** Identifiers are ASCII, so lowercasing acts on the letters [A-Z]. *)
Fixpoint lowercase (s : string) : string :=
  match s with
  | EmptyString => EmptyString
  | String c rest => String (Js.toLowerCase c) (lowercase rest)
  end.

Definition stripLeading (s : string) : string :=
  match s with
  | String "." rest => rest
  | _ => s
  end.

Definition filename (ident : string) : string :=
  stripLeading (lowercase (insertSeparators ident)).

Definition sqlFile (ident : string) : string :=
  filename ident +:+ ".sql".

End SpecRule.

(** Does the string contain an uppercase letter? *)
Fixpoint hasUpper (s : string) : bool :=
  match s with
  | EmptyString => false
  | String c rest => Js.isUpper c || hasUpper rest
  end.

(** Does the string contain the separator? *)
Fixpoint hasDot (s : string) : bool :=
  match s with
  | EmptyString => false
  | String c rest => Ascii.eqb c "." || hasDot rest
  end.

(** A class name as the repositories have it: an uppercase letter first
    and no separator anywhere after it. *)
Definition pascalCase (ident : string) : bool :=
  match ident with
  | EmptyString => false
  | String c rest => Js.isUpper c && negb (hasDot rest)
  end.

(** ** Plain objects

    An object with string keys that are not array indices, as the list of
    its own properties in the order in which JavaScript enumerates them
    (the order of insertion). *)

(** [obj[key]]: the value under the key, if the object has that property. *)
Fixpoint property {V} (key : string) (obj : list (string * V)) : option V :=
  match obj with
  | [] => None
  | (k, v) :: rest => if String.eqb k key then Some v else property key rest
  end.

(** [obj[key] = value]: an existing key keeps its place, a new key goes
    last. *)
Fixpoint assign {V} (key : string) (value : V) (obj : list (string * V))
    : list (string * V) :=
  match obj with
  | [] => [(key, value)]
  | (k, v) :: rest =>
      if String.eqb k key then (k, value) :: rest
      else (k, v) :: assign key value rest
  end.

(** ** The fixed target list (lines 31-48) *)

Definition AccessRepository_name : string := "AccessRepository".

Definition repository_names : list string :=
  [ "AccessRepository"; "AlbumRepository"; "ApiKeyRepository";
    "AssetRepository"; "AuditRepository"; "LibraryRepository";
    "MoveRepository"; "PartnerRepository"; "PersonRepository";
    "SharedLinkRepository"; "SearchRepository"; "SystemConfigRepository";
    "SystemMetadataRepository"; "TagRepository"; "UserTokenRepository";
    "UserRepository" ].

(** ** The generator *)

Module SqlGenerator.

(** Identity of a function object and of an instance. *)
Definition FnId := nat.
Definition ObjId := nat.

(** What [instance[key]] evaluates to for a property name of the
    prototype: a function object, or anything else. *)
Inductive Value :=
| VOther
| VFunction (target : FnId).

(** An object as [runTargets] sees it: its identity and the properties
    of its prototype, each name with the value that [instance[key]]
    evaluates to. *)
Record Obj := mkObj {
  oid : ObjId;
  prototype : list (string * Value);
}.

(** [Object.getOwnPropertyNames(Object.getPrototypeOf(instance))]
    (lines 176-178). *)
Definition getPropertyNames (instance : Obj) : list string :=
  map fst (prototype instance).

(** [instance[key]] *)
Definition get (instance : Obj) (key : string) : Value :=
  default VOther (property key (prototype instance)).

(** What [(instance as any)[key]] evaluates to for an own enumerable key:
    an object, or [null]/[undefined], which has no prototype to read. *)
Inductive SubValue :=
| VNullish
| VObject (o : Obj).

(** A resolved repository instance: the object itself and its own
    enumerable properties. *)
Record Instance := mkInstance {
  self : Obj;
  own : list (string * SubValue);
}.

(** [Object.keys(instance)] *)
Definition keys (instance : Instance) : list string :=
  map fst (own instance).

(** [(instance as any)[key]] for an own key. *)
Definition getOwn (instance : Instance) (key : string) : SubValue :=
  default VNullish (property key (own instance)).

(** A repository class: [Repository.name] and the instance that
    [this.app.get(Repository)] resolves (every class of the list is
    registered as a provider in [setup]). *)
Record Repository := mkRepository {
  name : string;
  instance : Instance;
}.

(** [INestApplication | null] *)
Inductive INestApplication := NestApplication.

(** Modelled from the spec: the logging shim [SqlLogger]
    (src/infra/sql-generator/sql.logger is missing): an ordered buffer of
    statement texts, [record] appends to it, [clear] empties it. *)
Record SqlLogger := mkSqlLogger { queries : list string }.

Definition SqlLogger_clear (l : SqlLogger) : SqlLogger := mkSqlLogger [].

Definition SqlLogger_record (l : SqlLogger) (sql : string) : SqlLogger :=
  mkSqlLogger (queries l ++ [sql]).

(** How a call [target.apply(instance, params)] ends, as far as
    [.catch(...)] and [await] can tell. *)
Inductive Outcome :=
| Fulfilled                   (* a promise that resolves *)
| Rejected (error : string)   (* a promise that rejects *)
| Thrown (error : string)     (* the call itself throws, no promise is returned *)
| NotThenable.                (* the call returns a value without [.catch] *)

Inductive Channel := Log | Warn | Error.

(** External failures of the phases that touch the file system and the
    application context: [Some e] makes the operation throw [e]. The two
    operations that can fail half-way say what they have done by then: a
    failing recursive removal has left the entries [rm_leaves] selects
    (the others are gone), and a failing write of a file either never
    opened it ([None]: the file is as before) or had opened it with flag
    ['w'], which creates or truncates it, and written the first [n]
    characters ([Some n]). *)
Record Faults := mkFaults {
  rm_error : option string;
  mkdir_error : option string;
  init_error : option string;
  writeFile_error : string -> option string;
  close_error : option string;
  rm_leaves : string -> bool;
  writeFile_partial : string -> option nat;
}.

Definition noFaults : Faults :=
  mkFaults None None None (fun _ => None) None (fun _ => true) (fun _ => None).

(** How a computation ends: with a value, or with a thrown error. *)
Inductive Result (A : Type) :=
| Ok (a : A)
| Throw (error : string).
Arguments Ok {A} a.
Arguments Throw {A} error.

Section Generator.

(** The database behind the repositories and the argument values of the
    invocation cases are left abstract. *)
Context {World Param : Type}.

(** Modelled from the spec: the type [GenerateSqlQueries] of one invocation
    case (src/decorators is missing): an optional human-readable name and
    the ordered list of argument values to pass. *)
Record GenerateSqlQueries := mkQuery {
  q_name : option string;
  q_params : list Param;
}.

(** One call of [target.apply(instance, params)], for the history. *)
Record Application := mkApplication {
  a_target : FnId;
  a_this : ObjId;
  a_params : list Param;
}.

Record State := mkState {
  this_app : option INestApplication;              (* this.app *)
  this_sqlLogger : SqlLogger;                      (* this.sqlLogger *)
  this_results : list (string * list string);      (* this.results, in key order *)
  metadata : gmap FnId (list GenerateSqlQueries);  (* arrays stored under GENERATE_SQL_KEY *)
  world : World;                                   (* the database *)
  targetDir : option (gmap string string);         (* files of options.targetDir, if it exists *)
  console : list (Channel * string);               (* lines printed so far *)
  applied : list Application;                      (* history of target.apply calls *)
  appClosed : nat;                                 (* number of calls of app.close() *)
}.

(** A fresh [new SqlGenerator({ targetDir })] beside the given
    surroundings. *)
Definition initial (meta : gmap FnId (list GenerateSqlQueries)) (w : World)
    (dir : option (gmap string string)) : State :=
  mkState None (mkSqlLogger []) [] meta w dir [] [] 0.

Definition set_app (a : option INestApplication) (s : State) : State :=
  mkState a (this_sqlLogger s) (this_results s) (metadata s) (world s)
          (targetDir s) (console s) (applied s) (appClosed s).

Definition set_sqlLogger (l : SqlLogger) (s : State) : State :=
  mkState (this_app s) l (this_results s) (metadata s) (world s)
          (targetDir s) (console s) (applied s) (appClosed s).

Definition set_results (r : list (string * list string)) (s : State) : State :=
  mkState (this_app s) (this_sqlLogger s) r (metadata s) (world s)
          (targetDir s) (console s) (applied s) (appClosed s).

Definition set_metadata (m : gmap FnId (list GenerateSqlQueries)) (s : State) : State :=
  mkState (this_app s) (this_sqlLogger s) (this_results s) m (world s)
          (targetDir s) (console s) (applied s) (appClosed s).

Definition set_world (w : World) (s : State) : State :=
  mkState (this_app s) (this_sqlLogger s) (this_results s) (metadata s) w
          (targetDir s) (console s) (applied s) (appClosed s).

Definition set_targetDir (d : option (gmap string string)) (s : State) : State :=
  mkState (this_app s) (this_sqlLogger s) (this_results s) (metadata s) (world s)
          d (console s) (applied s) (appClosed s).

Definition print (c : Channel) (line : string) (s : State) : State :=
  mkState (this_app s) (this_sqlLogger s) (this_results s) (metadata s) (world s)
          (targetDir s) (console s ++ [(c, line)]) (applied s) (appClosed s).

Definition note_applied (a : Application) (s : State) : State :=
  mkState (this_app s) (this_sqlLogger s) (this_results s) (metadata s) (world s)
          (targetDir s) (console s) (applied s ++ [a]) (appClosed s).

Definition note_closed (s : State) : State :=
  mkState (this_app s) (this_sqlLogger s) (this_results s) (metadata s) (world s)
          (targetDir s) (console s) (applied s) (S (appClosed s)).

(** *** Computations that read and write the state and may throw *)

Definition M (A : Type) : Type := State -> Result A * State.

Definition ret {A} (a : A) : M A := fun s => (Ok a, s).

Definition throw {A} (e : string) : M A := fun s => (Throw e, s).

Definition bind {A B} (m : M A) (k : A -> M B) : M B :=
  fun s =>
    match m s with
    | (Ok a, s') => k a s'
    | (Throw e, s') => (Throw e, s')
    end.

Notation "'let*' x ':=' c1 'in' c2" := (bind c1 (fun x => c2))
  (at level 10, x pattern, c1 at level 100, c2 at level 200).

Definition gets {A} (f : State -> A) : M A := fun s => (Ok (f s), s).

Definition modify (f : State -> State) : M unit := fun s => (Ok tt, f s).

(** [try { body } finally { handler }]: the handler runs on every path; if
    it throws, its error replaces the outcome of the body. *)
Definition try_finally {A} (body : M A) (handler : M unit) : M A :=
  fun s =>
    match body s with
    | (r, s1) =>
        match handler s1 with
        | (Ok _, s2) => (r, s2)
        | (Throw e, s2) => (Throw e, s2)
        end
    end.

(** [for (const x of xs) { await body(x) }] *)
Fixpoint forEach {A} (xs : list A) (body : A -> M unit) : M unit :=
  match xs with
  | [] => ret tt
  | x :: rest => let* _ := body x in forEach rest body
  end.

(** A loop whose iterations push onto one local array: the array is the
    concatenation, in order, of what each iteration pushed. *)
Fixpoint collect {A B} (xs : list A) (body : A -> M (list B)) : M (list B) :=
  match xs with
  | [] => ret []
  | x :: rest =>
      let* pushed := body x in
      let* more := collect rest body in
      ret (pushed ++ more)
  end.

(** *** The surroundings of one run *)

(** [target_apply f this params w] is what the call
    [target.apply(instance, params)] does on database [w]: the database
    afterwards, the texts of the statements the data layer executed, as
    they reach the logging shim (also when the call fails later), and how
    the call ends. *)
Variable target_apply :
  FnId -> ObjId -> list Param -> World -> World * list string * Outcome.

Variable faults : Faults.

Variable repositories : list Repository.

(** *** runTargets (lines 115-155) *)

Definition provenance : string :=
  "-- NOTE: This file is auto generated by ./sql-generator".

(** [let queryLabel = `${label}.${key}`; if (name) queryLabel += ` (${name})`] *)
Definition queryLabel (label key : string) (name : option string) : string :=
  let base := label +:+ "." +:+ key in
  match name with
  | Some n => if Js.truthy name then base +:+ " (" +:+ n +:+ ")" else base
  | None => base
  end.

(** [[`-- ${queryLabel}`, ...this.sqlLogger.queries].join('\n')] *)
Definition block (qlabel : string) (statements : list string) : string :=
  Js.join Js.newline (("-- " +:+ qlabel) :: statements).

(** [await target.apply(instance, params).catch((error) =>
      console.error(`${queryLabel} error: ${error}`))] *)
Definition applyCatch (target : FnId) (this : Obj) (params : list Param)
    (qlabel : string) : M unit :=
  fun s =>
    match target_apply target (oid this) params (world s) with
    | (w', statements, outcome) =>
        let s1 :=
          set_sqlLogger (fold_left SqlLogger_record statements (this_sqlLogger s))
            (set_world w' (note_applied (mkApplication target (oid this) params) s)) in
        match outcome with
        | Fulfilled => (Ok tt, s1)
        | Rejected e => (Ok tt, print Error (qlabel +:+ " error: " +:+ e) s1)
        | Thrown e => (Throw e, s1)
        | NotThenable =>
            (Throw "TypeError: target.apply(...).catch is not a function", s1)
        end
    end.

(** The body of [for (const { name, params } of queries)], lines 134-151. *)
Definition runCase (this : Obj) (label key : string) (target : FnId)
    (q : GenerateSqlQueries) : M (list string) :=
  let qlabel := queryLabel label key (q_name q) in
  let* _ := modify (fun s => set_sqlLogger (SqlLogger_clear (this_sqlLogger s)) s) in
  let* _ := applyCatch target this (q_params q) qlabel in
  let* recorded := gets (fun s => queries (this_sqlLogger s)) in
  if Nat.eqb (length recorded) 0
  then
    let* _ := modify (print Warn ("No queries recorded for " +:+ qlabel)) in
    ret []
  else ret [block qlabel recorded].

(** The body of [for (const key of this.getPropertyNames(instance))],
    lines 119-151. [queries.push({ params: [] })] changes the array the
    metadata store holds, not a copy of it. *)
Definition runKey (this : Obj) (label key : string) : M (list string) :=
  match get this key with
  | VOther => ret []
  | VFunction target =>
      let* found := gets (fun s => metadata s !! target) in
      match found with
      | None => ret []
      | Some qs =>
          let* cases :=
            (if Nat.eqb (length qs) 0
             then
               let qs' := qs ++ [mkQuery None []] in
               let* _ := modify (fun s => set_metadata (<[target := qs']> (metadata s)) s) in
               ret qs'
             else ret qs) in
          collect cases (runCase this label key target)
      end
  end.

Definition runTargets (this : Obj) (label : string) : M (list string) :=
  collect (getPropertyNames this) (runKey this label).

(** *** process (lines 93-113) *)

(** The body of [for (const key of Object.keys(instance))]. Reading the
    prototype of [null] or [undefined] throws a [TypeError]. *)
Definition runNested (instance : Instance) (repoName key : string)
    : M (list string) :=
  match getOwn instance key with
  | VNullish => throw "TypeError: Cannot convert undefined or null to object"
  | VObject subInstance => runTargets subInstance (repoName +:+ "." +:+ key)
  end.

Definition process (R : Repository) : M unit :=
  let* a := gets this_app in
  match a with
  | None => throw "Error: Not initialized"
  | Some _ =>
      let inst := instance R in
      let* normal := runTargets (self inst) (name R) in
      let* nested :=
        (if String.eqb (name R) AccessRepository_name
         then collect (keys inst) (runNested inst (name R))
         else ret []) in
      modify (fun s =>
        set_results (assign (name R) (provenance :: normal ++ nested) (this_results s)) s)
  end.

(** *** setup, write, stats, close (lines 73-91 and 157-174) *)

Definition fail_if (e : option string) : M unit :=
  match e with
  | Some err => throw err
  | None => ret tt
  end.

(** An operation that throws after it has already changed the state. *)
Definition fail_after (e : option string) (done : State -> State) : M unit :=
  match e with
  | Some err => fun s => (Throw err, done s)
  | None => ret tt
  end.

(** What a failing recursive removal leaves of the directory. *)
Definition rm_remains (files : gmap string string) : gmap string string :=
  filter (fun entry => rm_leaves faults (fst entry) = true) files.

(** What a failing write leaves of the directory. *)
Definition writeFile_remains (file content : string) (s : State) : State :=
  match writeFile_partial faults file, targetDir s with
  | Some n, Some files =>
      set_targetDir (Some (<[file := String.substring 0 n content]> files)) s
  | _, _ => s
  end.

(** [rm(targetDir, { force: true, recursive: true })], then
    [mkdir(targetDir)], then the creation of the application context. *)
Definition setup : M unit :=
  let* _ := fail_after (rm_error faults)
              (fun s => set_targetDir (rm_remains <$> targetDir s) s) in
  let* _ := modify (set_targetDir None) in
  let* _ := fail_if (mkdir_error faults) in
  let* dir := gets targetDir in
  let* _ :=
    (match dir with
     | Some _ => throw "Error: EEXIST: file already exists"
     | None => modify (set_targetDir (Some ∅))
     end) in
  let* _ := fail_if (init_error faults) in
  modify (set_app (Some NestApplication)).

(** [writeFile(join(targetDir, file), content)] *)
Definition writeFile (file content : string) : M unit :=
  let* _ := fail_after (writeFile_error faults file)
              (writeFile_remains file content) in
  let* dir := gets targetDir in
  match dir with
  | None => throw "Error: ENOENT: no such file or directory"
  | Some files => modify (set_targetDir (Some (<[file := content]> files)))
  end.

(** [data.join('\n\n') + '\n'] *)
Definition fileContent (data : list string) : string :=
  Js.join (Js.newline +:+ Js.newline) data +:+ Js.newline.


Definition write : M unit :=
  let* entries := gets this_results in
  forEach entries (fun entry =>
    writeFile (sqlFile (fst entry)) (fileContent (snd entry))).

Definition stats : M unit :=
  let* entries := gets this_results in
  let* _ :=
    modify (print Log ("Wrote " +:+ Js.ofNumber (length (map fst entries)) +:+ " files")) in
  modify (print Log ("Generated " +:+ Js.ofNumber (length (concat (map snd entries)))
                       +:+ " queries")).

Definition close : M unit :=
  let* a := gets this_app in
  match a with
  | Some _ =>
      let* _ := modify note_closed in
      fail_if (close_error faults)
  | None => ret tt
  end.

(** *** run (lines 60-71) and the top-level invocation (lines 181-191) *)

(** The body of the [try] block. *)
Definition phases : M unit :=
  let* _ := setup in
  let* _ := forEach repositories process in
  let* _ := write in
  stats.

Definition run : M unit := try_finally phases close.

(** The exit status handed to [process.exit] and the final state. *)
Definition main (s : State) : nat * State :=
  match run s with
  | (Ok _, s') => (0, print Log "Done" s')
  | (Throw e, s') => (1, print Log "Something went wrong" (print Error e s'))
  end.

(** *** Vocabulary of the properties

    Nothing below is part of the generator: these are the notions in
    which its properties are stated. *)

(** [evolves R f m]: whatever [m] does and however it ends, the
    observation [f] of the state moves along [R]. *)
Definition evolves {A X} (R : relation X) (f : State -> X) (m : M A) : Prop :=
  forall s r s', m s = (r, s') -> R (f s) (f s').

(** [keeps f m]: [m] leaves the observation [f] alone. *)
Definition keeps {A X} (f : State -> X) (m : M A) : Prop := evolves eq f m.

(** An observation of the state that the invocation of targets cannot
    change: it ignores the logging shim, the database, the metadata store,
    the console and the history of calls. *)
Record Untargeted {X} (f : State -> X) : Prop := {
  untargeted_sqlLogger : forall l s, f (set_sqlLogger l s) = f s;
  untargeted_world : forall w s, f (set_world w s) = f s;
  untargeted_metadata : forall m s, f (set_metadata m s) = f s;
  untargeted_print : forall c line s, f (print c line s) = f s;
  untargeted_applied : forall a s, f (note_applied a s) = f s;
}.

(** The part of a label that names the invocation case, if it has a
    name. *)
Definition caseSuffix (name : option string) : string :=
  match name with
  | Some n => if Js.truthy name then " (" +:+ n +:+ ")" else ""
  | None => ""
  end.

(** [b] is the block of one invocation case of method [key], walked
    under [label]: the header line and at least one statement. *)
Definition caseBlock (label key : string) (b : string) : Prop :=
  exists (name : option string) (statements : list string),
    statements <> [] /\ b = block (queryLabel label key name) statements.

(** [b] is a block of a function-valued property of [this]. *)
Definition targetBlock (this : Obj) (label : string) (b : string) : Prop :=
  exists key target,
    key ∈ getPropertyNames this /\ get this key = VFunction target /\
    caseBlock label key b.

(** Is the value the function object [f]? *)
Definition isTarget (f : FnId) (v : Value) : bool :=
  match v with
  | VFunction g => Nat.eqb g f
  | VOther => false
  end.

(** How many property names of [this] lead to the function object [f]. *)
Definition visits (f : FnId) (this : Obj) : nat :=
  length (List.filter (fun key => isTarget f (get this key)) (getPropertyNames this)).

(** The calls of the function object [f] in a history. *)
Definition applicationsOf (f : FnId) (history : list Application)
    : list Application :=
  List.filter (fun a => Nat.eqb (a_target a) f) history.

(** The sequence of an entry of the result mapping starts with the
    provenance line. *)
Definition headed (data : list string) : Prop :=
  exists blocks, data = provenance :: blocks.

(** The provenance line, each block after an empty line, and one final
    end of line. *)
Definition layout (blocks : list string) : string :=
  provenance
    +:+ Js.flatten (map (String.append (Js.newline +:+ Js.newline)) blocks)
    +:+ Js.newline.

(** The number of blocks in the result mapping: the elements of every
    sequence after its first. *)
Definition blockCount (entries : list (string * list string)) : nat :=
  list_sum (map (fun entry => length (tail (snd entry))) entries).

(** The directory after the loop of [write] has written the entries, in
    order, into [files]. *)
Definition written (entries : list (string * list string))
    (files : gmap string string) : gmap string string :=
  fold_left (fun d entry => <[sqlFile (fst entry) := fileContent (snd entry)]> d)
    entries files.

(** The number of warnings among the printed lines. *)
Definition warnings (lines : list (Channel * string)) : nat :=
  length (List.filter
            (fun l => match fst l with Warn => true | _ => false end) lines).

(** The only change a walk makes to the metadata store: an empty case
    list becomes the list of the one case without arguments. *)
Definition defaulted (m m' : gmap FnId (list GenerateSqlQueries)) : Prop :=
  forall f,
    m' !! f = m !! f \/
    (m !! f = Some [] /\ m' !! f = Some [mkQuery None []]).

(** The metadata store together with the history of calls. *)
Definition trace (s : State) : gmap FnId (list GenerateSqlQueries) * list Application :=
  (metadata s, applied s).

(** From [before] to [after] the store was only defaulted and the history
    only grew, by calls of functions that carry metadata. *)
Definition traced
    (before after : gmap FnId (list GenerateSqlQueries) * list Application) : Prop :=
  defaulted (fst before) (fst after) /\
  exists calls,
    snd after = snd before ++ calls /\
    Forall (fun c => is_Some (fst before !! a_target c)) calls.

(** The calls made between two states are matched by the blocks [d]
    returned and the warnings printed in between. *)
Definition balanced (d : list string) (s s' : State) : Prop :=
  length (applied s') + warnings (console s)
    = length (applied s) + length d + warnings (console s').

(** An invocation case of a walk: the label of its block, the function
    object that is called, the receiver and the arguments. *)
Record Planned := mkPlanned {
  p_label : string;
  p_target : FnId;
  p_this : ObjId;
  p_params : list Param;
}.

Definition callOf (p : Planned) : Application :=
  mkApplication (p_target p) (p_this p) (p_params p).

(** The cases under which a function object is invoked: those of its
    metadata, in their order; the one case without name and arguments when
    the list is empty; none when it has no metadata. *)
Definition casesOf (meta : gmap FnId (list GenerateSqlQueries)) (f : FnId)
    : list GenerateSqlQueries :=
  match meta !! f with
  | Some [] => [mkQuery None []]
  | Some cases => cases
  | None => []
  end.

(** The invocation cases of the property [key] of [this], walked under
    [label]: labelled [label.key], with the name of the case in
    parentheses when it has one. *)
Definition plannedKey (meta : gmap FnId (list GenerateSqlQueries)) (this : Obj)
    (label key : string) : list Planned :=
  match get this key with
  | VFunction f =>
      map (fun q => mkPlanned (label +:+ "." +:+ key +:+ caseSuffix (q_name q))
                      f (oid this) (q_params q))
        (casesOf meta f)
  | VOther => []
  end.

(** The invocation cases of an object: its property names in order, the
    cases of each in order. *)
Definition planned (meta : gmap FnId (list GenerateSqlQueries)) (this : Obj)
    (label : string) : list Planned :=
  flat_map (plannedKey meta this label) (getPropertyNames this).

(** The invocation cases of the sub-object under the own key [sub],
    walked under [repoName.sub]. *)
Definition plannedSub (meta : gmap FnId (list GenerateSqlQueries))
    (inst : Instance) (repoName sub : string) : list Planned :=
  match getOwn inst sub with
  | VObject o => planned meta o (repoName +:+ "." +:+ sub)
  | VNullish => []
  end.

(** All invocation cases of a repository: those of its own methods, then,
    for the composite repository, those of its sub-objects in the order of
    its own keys. *)
Definition plannedFor (meta : gmap FnId (list GenerateSqlQueries))
    (R : Repository) : list Planned :=
  planned meta (self (instance R)) (name R)
    ++ (if String.eqb (name R) AccessRepository_name
        then flat_map (plannedSub meta (instance R) (name R)) (keys (instance R))
        else []).

(** The end-of-line character, written out. *)
Definition eol : string :=
  String (Ascii.Ascii false true false true false false false false) EmptyString.

(** The block of a captured case: the header line [-- label] and every
    statement after an end of line; no block without a statement. *)
Definition blockOf (capture : Planned * list string) : list string :=
  match snd capture with
  | [] => []
  | statements =>
      ["-- " +:+ p_label (fst capture)
         +:+ Js.flatten (map (String.append eol) statements)]
  end.

(** The statements of a capture are those that a call of the planned
    function, on the planned receiver and arguments, issued before it
    resolved or rejected. *)
Definition issued (capture : Planned * list string) : Prop :=
  exists w w' outcome,
    target_apply (p_target (fst capture)) (p_this (fst capture))
      (p_params (fst capture)) w = (w', snd capture, outcome) /\
    (outcome = Fulfilled \/ exists err, outcome = Rejected err).

(** Between [s] and [s'] exactly the cases of [plan] were invoked, in
    order, and [d] holds their blocks, in the same order. *)
Definition captured (plan : list Planned) (d : list string) (s s' : State) : Prop :=
  exists log : list (Planned * list string),
    map fst log = plan /\
    Forall issued log /\
    d = flat_map blockOf log /\
    applied s' = applied s ++ map callOf plan.

(** [data] is what processing [R] stores: the provenance line and the
    blocks of the cases of [R], in the order of the cases. *)
Definition processed (meta : gmap FnId (list GenerateSqlQueries))
    (R : Repository) (data : list string) : Prop :=
  exists log : list (Planned * list string),
    map fst log = plannedFor meta R /\
    Forall issued log /\
    data = provenance :: flat_map blockOf log.

End Generator.

End SqlGenerator.

(** ** Concrete surroundings

    Small repositories on which the generator is run in the examples
    below. The database is trivial and the arguments of the cases are
    written as strings. *)

Module Scenario.

Import SqlGenerator.

(** The statements a function object issues and how its call ends. *)
Definition behaviour (f : FnId) : list string * Outcome :=
  match f with
  | 1 => (["SELECT * FROM a"], Fulfilled)
  | 2 => (["UPDATE b SET x = 1"], Rejected "Error: after the statement")
  | 3 => ([], Rejected "Error: before any statement")
  | 4 => ([], Thrown "Error: thrown by the call")
  | 5 => (["SELECT * FROM album"], Fulfilled)
  | 7 => (["SELECT * FROM shared"; "SELECT * FROM partner"], Fulfilled)
  | _ => ([], Fulfilled)
  end.

Definition target_apply (f : FnId) (this : ObjId) (params : list string)
    (w : unit) : unit * list string * Outcome :=
  (w, fst (behaviour f), snd (behaviour f)).

Definition State : Type := @SqlGenerator.State unit string.

(** Every annotated method of the scenarios carries the empty case list,
    except [7], which has one named case with an argument. *)
Definition store : gmap FnId (list (@GenerateSqlQueries string)) :=
  {[ 1 := []; 2 := []; 3 := []; 4 := []; 5 := [];
     7 := [mkQuery (Some "by id") ["uuid"]] ]}.

Definition start : State := initial store tt None.

(** The state once [setup] has completed. *)
Definition ready : State :=
  set_app (Some NestApplication) (set_targetDir (Some ∅) start).

(** The end-to-end scenario of the specification: one repository [RepoA]
    whose method [findAll] issues [SELECT * FROM a]. *)
Definition RepoA : Repository :=
  mkRepository "RepoA"
    (mkInstance (mkObj 10 [("constructor", VFunction 0); ("findAll", VFunction 1)]) []).

(** A repository with a method that rejects after its statement, one that
    rejects before any statement, and one that succeeds. *)
Definition RepoB : Repository :=
  mkRepository "RepoB"
    (mkInstance
       (mkObj 11 [("constructor", VFunction 0); ("update", VFunction 2);
                  ("remove", VFunction 3); ("findAll", VFunction 1)]) []).

(** A repository whose first annotated method throws before it returns a
    promise. *)
Definition RepoC : Repository :=
  mkRepository "RepoC"
    (mkInstance
       (mkObj 12 [("constructor", VFunction 0); ("load", VFunction 4);
                  ("findAll", VFunction 1)]) []).

(** The composite repository: one method of its own and one nested
    sub-object. *)
Definition Access : Repository :=
  mkRepository "AccessRepository"
    (mkInstance
       (mkObj 13 [("constructor", VFunction 0); ("findAll", VFunction 1)])
       [("album", VObject (mkObj 14 [("constructor", VFunction 6);
                                     ("checkOwnerAccess", VFunction 5);
                                     ("checkSharedAccess", VFunction 7)]))]).

(** The sixteen repositories of the target list: [AccessRepository] as
    above, the others without an annotated method. *)
Definition bare (n : string) : Repository :=
  mkRepository n (mkInstance (mkObj 20 [("constructor", VFunction 0)]) []).

Definition targetList : list Repository :=
  Access :: map bare (tail repository_names).

(** The file system refuses to write. *)
Definition readOnly : Faults :=
  mkFaults None None None (fun _ => Some "Error: EACCES: permission denied") None
    (fun _ => true) (fun _ => None).

(** The same start over a directory that holds files of an earlier run. *)
Definition stale : State :=
  initial store tt
    (Some {[ "old.repository.sql" := "-- stale";
             "locked.repository.sql" := "-- locked" ]}).

(** The removal of the directory fails at one file, after the other
    entries have been removed. *)
Definition rmFails : Faults :=
  mkFaults (Some "Error: EPERM: operation not permitted") None None
    (fun _ => None) None
    (fun file => String.eqb file "locked.repository.sql") (fun _ => None).

(** The application context cannot be closed. *)
Definition closeFails : Faults :=
  mkFaults None None None (fun _ => None) (Some "Error: close failed")
    (fun _ => true) (fun _ => None).

(** The file of [RepoB] is opened, and the disk is full after the first
    ten characters. *)
Definition diskFull : Faults :=
  mkFaults None None None
    (fun file => if String.eqb file "repo.b.sql"
                 then Some "Error: ENOSPC: no space left on device"
                 else None)
    None
    (fun _ => true)
    (fun _ => Some 10).

(** A state whose logging shim still holds a statement of an earlier
    call. *)
Definition dirty : State :=
  set_sqlLogger (mkSqlLogger ["SELECT 1"]) ready.

End Scenario.

(** * Properties *)

(** ** File names *)

Section FileNames.

Lemma toLowerCase_not_upper c : Js.isUpper c = false -> Js.toLowerCase c = c.
Proof. unfold Js.toLowerCase. now intros ->. Qed.

Lemma isUpper_not_dot c : Js.isUpper c = true -> Ascii.eqb c "." = false.
Proof.
  destruct (Ascii.eqb_spec c "."%char) as [-> | _]; [discriminate | reflexivity].
Qed.

Lemma isLower_not_dot c : Js.isLower c = true -> Ascii.eqb c "." = false.
Proof.
  destruct (Ascii.eqb_spec c "."%char) as [-> | _]; [discriminate | reflexivity].
Qed.

Lemma isLower_not_upper c : Js.isLower c = true -> Js.isUpper c = false.
Proof.
  unfold Js.isLower, Js.isUpper. intros H.
  apply andb_prop in H as [H _]. apply Nat.leb_le in H.
  apply andb_false_iff. right. apply Nat.leb_gt. lia.
Qed.

Lemma toLowerCase_upper_not_dot c :
  Js.isUpper c = true -> Ascii.eqb (Js.toLowerCase c) "." = false.
Proof.
  intros H. unfold Js.toLowerCase. rewrite H.
  unfold Js.isUpper in H. apply andb_prop in H as [H1 H2].
  apply Nat.leb_le in H1. apply Nat.leb_le in H2.
  destruct (Ascii.eqb_spec (ascii_of_nat (nat_of_ascii c + 32)) "."%char) as [E | _];
    [| reflexivity].
  apply (f_equal nat_of_ascii) in E.
  rewrite nat_ascii_embedding in E by lia.
  change (nat_of_ascii ".") with 46 in E. lia.
Qed.

(** The replacement of the code is the composition of the first two steps
    of the rule: lowercasing touches nothing but the letters the
    separators were put in front of. *)
Lemma replaceAll_upper_rule s :
  replaceAll_upper s = SpecRule.lowercase (SpecRule.insertSeparators s).
Proof.
  induction s as [| c rest IH]; [reflexivity |].
  cbn [replaceAll_upper SpecRule.insertSeparators].
  destruct (Js.isUpper c) eqn:E; cbn [SpecRule.lowercase]; rewrite IH.
  - reflexivity.
  - now rewrite (toLowerCase_not_upper c E).
Qed.

Lemma stripLeading_other c s :
  Ascii.eqb c "." = false -> SpecRule.stripLeading (String c s) = String c s.
Proof.
  intros H. destruct (Ascii.eqb_spec c "."%char) as [-> | Hne]; [discriminate |].
  destruct c as [[] [] [] [] [] [] [] []]; try reflexivity.
  now contradiction Hne.
Qed.

Lemma replace_dot_length s :
  hasDot s = true -> S (String.length (replace_dot s)) = String.length s.
Proof.
  induction s as [| c rest IH]; cbn; [discriminate |].
  destruct (Ascii.eqb c "."); cbn; [reflexivity |].
  intros H. now rewrite IH.
Qed.

Lemma replaceAll_upper_hasDot s :
  hasUpper s = true -> hasDot (replaceAll_upper s) = true.
Proof.
  induction s as [| c rest IH]; cbn; [discriminate |].
  destruct (Js.isUpper c); cbn; [reflexivity |].
  intros H. rewrite (IH H). apply orb_true_r.
Qed.

(** On an identifier that starts with an uppercase letter the code follows
    the rule. *)
Lemma filename_upper_first c rest :
  Js.isUpper c = true ->
  filename (String c rest) = SpecRule.filename (String c rest).
Proof.
  intros H. unfold filename, SpecRule.filename.
  rewrite <- replaceAll_upper_rule. cbn [replaceAll_upper]. rewrite H.
  reflexivity.
Qed.

(** On an identifier that starts with a lowercase letter the rule strips
    nothing, and the code removes the first separator of the rule's
    result. *)
Lemma filename_lower_first c rest :
  Js.isLower c = true ->
  SpecRule.filename (String c rest) = String c (replaceAll_upper rest) /\
  filename (String c rest) = String c (replace_dot (replaceAll_upper rest)).
Proof.
  intros H. unfold filename, SpecRule.filename.
  rewrite <- replaceAll_upper_rule. cbn [replaceAll_upper replace_dot].
  rewrite (isLower_not_upper c H). cbn [replace_dot].
  rewrite (isLower_not_dot c H). split; [| reflexivity].
  apply stripLeading_other, (isLower_not_dot c H).
Qed.

(** C2: the name of the output file is a function of the repository
    identifier alone; on a PascalCase identifier it is the rule of the
    specification (separator before each uppercase letter, lowercase,
    leading separator stripped, extension appended), which holds for the
    sixteen identifiers of the target list, and it sends [AssetRepository]
    to [asset.repository.sql] and [AccessRepository] to
    [access.repository.sql]. *)
Theorem filename_derivation :
  (forall c rest, Js.isUpper c = true ->
     sqlFile (String c rest) = SpecRule.sqlFile (String c rest)) /\
  Forall (fun ident => sqlFile ident = SpecRule.sqlFile ident) repository_names /\
  sqlFile "AssetRepository" = "asset.repository.sql" /\
  sqlFile "AccessRepository" = "access.repository.sql".
Proof.
  split; [| split; [| split; reflexivity]].
  - intros c rest H. unfold sqlFile, SpecRule.sqlFile.
    now rewrite (filename_upper_first c rest H).
  - unfold repository_names. repeat constructor.
Qed.

Lemma filename_derivation_witness :
  sqlFile "UserTokenRepository" = SpecRule.sqlFile "UserTokenRepository" /\
  sqlFile "UserTokenRepository" = "user.token.repository.sql".
Proof.
  split.
  - apply (proj1 filename_derivation "U"%char "serTokenRepository"). reflexivity.
  - reflexivity.
Defined.

(** C9: the transformation of the code (a separator and the lowercase
    letter for each uppercase letter, then the first separator removed,
    wherever it is) equals the rule of the specification (only a leading
    separator is stripped) on every identifier whose first character is an
    uppercase letter; on an identifier that starts with a lowercase letter
    and has an uppercase letter further on, the two differ: the code yields
    the rule's result with its first, interior, separator removed. *)
Theorem filename_refines_rule :
  (forall c rest, Js.isUpper c = true ->
     filename (String c rest) = SpecRule.filename (String c rest)) /\
  (forall c rest, Js.isLower c = true -> hasUpper rest = true ->
     filename (String c rest) <> SpecRule.filename (String c rest) /\
     filename (String c rest) = replace_dot (SpecRule.filename (String c rest)) /\
     hasDot (SpecRule.filename (String c rest)) = true /\
     SpecRule.stripLeading (SpecRule.filename (String c rest))
       = SpecRule.filename (String c rest)).
Proof.
  split; [exact filename_upper_first |].
  intros c rest Hc Hrest.
  destruct (filename_lower_first c rest Hc) as [Hs Hf].
  rewrite Hs, Hf.
  pose proof (replace_dot_length _ (replaceAll_upper_hasDot rest Hrest)) as Hlen.
  split; [| split; [| split]].
  - intros E. injection E as E. rewrite E in Hlen. lia.
  - cbn [replace_dot]. now rewrite (isLower_not_dot c Hc).
  - cbn [hasDot]. rewrite (replaceAll_upper_hasDot rest Hrest). apply orb_true_r.
  - apply stripLeading_other, (isLower_not_dot c Hc).
Qed.

Lemma filename_refines_rule_witness :
  filename "AssetRepository" = SpecRule.filename "AssetRepository" /\
  filename "assetRepository" <> SpecRule.filename "assetRepository".
Proof.
  split.
  - apply (proj1 filename_refines_rule "A"%char "ssetRepository"). reflexivity.
  - apply (proj2 filename_refines_rule "a"%char "ssetRepository"); reflexivity.
Defined.

(** ** Further properties of the file names *)

Lemma toLowerCase_never_upper c : Js.isUpper (Js.toLowerCase c) = false.
Proof.
  unfold Js.toLowerCase. destruct (Js.isUpper c) eqn:E; [| exact E].
  unfold Js.isUpper in *. apply andb_prop in E as [E1 E2].
  apply Nat.leb_le in E1. apply Nat.leb_le in E2.
  rewrite nat_ascii_embedding by lia.
  apply andb_false_iff. right. apply Nat.leb_gt. lia.
Qed.

Lemma toLowerCase_inj c d :
  Js.isUpper c = true -> Js.isUpper d = true ->
  Js.toLowerCase c = Js.toLowerCase d -> c = d.
Proof.
  intros Hc Hd. unfold Js.toLowerCase. rewrite Hc, Hd.
  unfold Js.isUpper in *.
  apply andb_prop in Hc as [_ Hc]. apply andb_prop in Hd as [_ Hd].
  apply Nat.leb_le in Hc. apply Nat.leb_le in Hd.
  intros E. apply (f_equal nat_of_ascii) in E.
  rewrite !nat_ascii_embedding in E by lia.
  rewrite <- (ascii_nat_embedding c), <- (ascii_nat_embedding d).
  f_equal. lia.
Qed.

Lemma hasUpper_append a b : hasUpper (a +:+ b) = hasUpper a || hasUpper b.
Proof.
  induction a as [| c a IH]; [reflexivity |].
  change (hasUpper (String c (a +:+ b))
          = (Js.isUpper c || hasUpper a) || hasUpper b).
  cbn [hasUpper]. now rewrite IH, orb_assoc.
Qed.

Lemma replaceAll_upper_no_upper s : hasUpper (replaceAll_upper s) = false.
Proof.
  induction s as [| c rest IH]; [reflexivity |].
  cbn [replaceAll_upper]. destruct (Js.isUpper c) eqn:E; cbn [hasUpper].
  - now rewrite toLowerCase_never_upper, IH.
  - now rewrite E, IH.
Qed.

Lemma replace_dot_no_upper s : hasUpper s = false -> hasUpper (replace_dot s) = false.
Proof.
  induction s as [| c rest IH]; [reflexivity |].
  cbn [hasUpper replace_dot]. intros H. apply orb_false_iff in H as [Hc Hrest].
  destruct (Ascii.eqb c "."); [exact Hrest |].
  cbn [hasUpper]. now rewrite Hc, IH.
Qed.

(** X14: the name of an output file never contains an uppercase letter,
    whatever the identifier is. *)
Theorem sqlFile_lowercase repoName : hasUpper (sqlFile repoName) = false.
Proof.
  unfold sqlFile, filename. rewrite hasUpper_append.
  now rewrite replace_dot_no_upper by apply replaceAll_upper_no_upper.
Qed.

Lemma length_append (a b : string) :
  String.length (a +:+ b) = String.length a + String.length b.
Proof.
  induction a as [| c a IH]; [reflexivity |].
  change (S (String.length (a +:+ b)) = S (String.length a + String.length b)).
  now rewrite IH.
Qed.

Lemma append_inj_l (a b t : string) : a +:+ t = b +:+ t -> a = b.
Proof.
  revert b. induction a as [| c a IH]; intros [| d b] H.
  - reflexivity.
  - apply (f_equal String.length) in H.
    change ("" +:+ t) with t in H.
    change (String d b +:+ t) with (String d (b +:+ t)) in H.
    cbn [String.length] in H. rewrite length_append in H. lia.
  - apply (f_equal String.length) in H.
    change ("" +:+ t) with t in H.
    change (String c a +:+ t) with (String c (a +:+ t)) in H.
    cbn [String.length] in H. rewrite length_append in H. lia.
  - change (String c (a +:+ t) = String d (b +:+ t)) in H.
    injection H as -> H. f_equal. now apply IH.
Qed.

Lemma replaceAll_upper_inj a : forall b,
  hasDot a = false -> hasDot b = false ->
  replaceAll_upper a = replaceAll_upper b -> a = b.
Proof.
  induction a as [| c a IH]; intros [| d b] Ha Hb H; cbn [replaceAll_upper hasDot] in *.
  - reflexivity.
  - destruct (Js.isUpper d); discriminate.
  - destruct (Js.isUpper c); discriminate.
  - apply orb_false_iff in Ha as [Hc Ha]. apply orb_false_iff in Hb as [Hd Hb].
    destruct (Js.isUpper c) eqn:Ec, (Js.isUpper d) eqn:Ed.
    + injection H as Hl H. f_equal; [now apply toLowerCase_inj | now apply IH].
    + injection H as <- _. discriminate.
    + injection H as -> _. discriminate.
    + injection H as -> H. f_equal. now apply IH.
Qed.

(** X1: on class names (an uppercase letter first, no separator inside)
    the derivation of the file name is injective: two repositories with
    different names never share an output file. *)
Theorem sqlFile_injective a b :
  pascalCase a = true -> pascalCase b = true ->
  a <> b -> sqlFile a <> sqlFile b.
Proof.
  destruct a as [| c a], b as [| d b]; cbn [pascalCase]; try discriminate.
  intros Ha Hb Hne H. apply Hne.
  apply andb_prop in Ha as [Hc Ha]. apply andb_prop in Hb as [Hd Hb].
  apply negb_true_iff in Ha. apply negb_true_iff in Hb.
  unfold sqlFile in H. apply append_inj_l in H.
  unfold filename in H. cbn [replaceAll_upper] in H. rewrite Hc, Hd in H.
  cbn [replace_dot] in H.
  change (Ascii.eqb "." ".") with true in H. cbn iota in H.
  injection H as Hl H.
  f_equal; [now apply toLowerCase_inj | now apply replaceAll_upper_inj].
Qed.

Lemma sqlFile_injective_witness :
  sqlFile "SharedLinkRepository" <> sqlFile "SearchRepository".
Proof.
  apply sqlFile_injective; [reflexivity | reflexivity | discriminate].
Defined.

(** Outside class names the derivation is not injective: the separator
    that marks the uppercase letter is the one that is removed. *)
Example sqlFile_collision : sqlFile "aB" = sqlFile "ab".
Proof. reflexivity. Qed.

End FileNames.

(** ** Reasoning about computations *)

Import SqlGenerator.

Section Facts.

Context {World Param : Type}.

Abbreviation State := (@State World Param).
Abbreviation M := (@M World Param).

Lemma bind_inv {A B} (m : M A) (k : A -> M B) s r s' :
  bind m k s = (r, s') ->
  (exists a s1, m s = (Ok a, s1) /\ k a s1 = (r, s')) \/
  (exists e, m s = (Throw e, s') /\ r = Throw e).
Proof.
  unfold bind. destruct (m s) as [[a | e] s1]; intros H.
  - left. eauto.
  - right. inversion H; subst. eauto.
Qed.

Lemma bind_ok_inv {A B} (m : M A) (k : A -> M B) s b s' :
  bind m k s = (Ok b, s') ->
  exists a s1, m s = (Ok a, s1) /\ k a s1 = (Ok b, s').
Proof.
  intros H. apply bind_inv in H as [H | (e & _ & H)]; [exact H | discriminate].
Qed.

Lemma bind_ok {A B} (m : M A) (k : A -> M B) s a s1 :
  m s = (Ok a, s1) -> bind m k s = k a s1.
Proof. unfold bind. now intros ->. Qed.

Lemma bind_throw {A B} (m : M A) (k : A -> M B) s e s1 :
  m s = (Throw e, s1) -> bind m k s = (Throw e, s1).
Proof. unfold bind. now intros ->. Qed.

Section Evolves.

Context {X : Type} (R : relation X) `{!PreOrder R} (f : State -> X).

Lemma evolves_ret {A} (a : A) : evolves R f (ret a).
Proof. intros s r s' H. inversion H; subst. reflexivity. Qed.

Lemma evolves_throw {A} e : evolves R f (@throw World Param A e).
Proof. intros s r s' H. inversion H; subst. reflexivity. Qed.

Lemma evolves_gets {A} (g : State -> A) : evolves R f (gets g).
Proof. intros s r s' H. inversion H; subst. reflexivity. Qed.

Lemma evolves_modify (g : State -> State) :
  (forall s, R (f s) (f (g s))) -> evolves R f (modify g).
Proof. intros Hg s r s' H. inversion H; subst. apply Hg. Qed.

Lemma evolves_bind {A B} (m : M A) (k : A -> M B) :
  evolves R f m -> (forall a, evolves R f (k a)) -> evolves R f (bind m k).
Proof.
  intros Hm Hk s r s' H.
  apply bind_inv in H as [(a & s1 & H1 & H2) | (e & H1 & _)].
  - transitivity (f s1); [eapply Hm | eapply Hk]; eassumption.
  - eapply Hm; eassumption.
Qed.

Lemma evolves_collect {A B} (xs : list A) (body : A -> M (list B)) :
  (forall x, evolves R f (body x)) -> evolves R f (collect xs body).
Proof.
  intros Hbody. induction xs as [| x rest IH]; cbn [collect].
  - apply evolves_ret.
  - apply evolves_bind; [apply Hbody | intros pushed].
    apply evolves_bind; [apply IH | intros more]. apply evolves_ret.
Qed.

Lemma evolves_forEach {A} (xs : list A) (body : A -> M unit) :
  (forall x, evolves R f (body x)) -> evolves R f (forEach xs body).
Proof.
  intros Hbody. induction xs as [| x rest IH]; cbn [forEach].
  - apply evolves_ret.
  - apply evolves_bind; [apply Hbody | intros _; apply IH].
Qed.

Lemma evolves_try_finally {A} (body : M A) (handler : M unit) :
  evolves R f body -> evolves R f handler -> evolves R f (try_finally body handler).
Proof.
  intros Hb Hh s r s' H. unfold try_finally in H.
  destruct (body s) as [rb s1] eqn:Eb.
  destruct (handler s1) as [rh s2] eqn:Eh.
  transitivity (f s1); [eapply Hb; eassumption |].
  destruct rh; inversion H; subst; eapply Hh; eassumption.
Qed.

Lemma evolves_fail_if e : evolves R f (@fail_if World Param e).
Proof. destruct e; [apply evolves_throw | apply evolves_ret]. Qed.

Lemma evolves_fail_after e (done : State -> State) :
  (forall s, R (f s) (f (done s))) -> evolves R f (fail_after e done).
Proof.
  intros Hd. destruct e as [err |]; [| apply evolves_ret].
  intros s r s' H. injection H as _ <-. apply Hd.
Qed.

End Evolves.

Lemma keeps_eq {A X} (f : State -> X) (m : M A) s r s' :
  keeps f m -> m s = (r, s') -> f s' = f s.
Proof. intros H E. symmetry. exact (H s r s' E). Qed.

(** The structural rules, with the order on the observation found by
    instance search. *)
Ltac ev_ret := apply evolves_ret; tc_solve.
Ltac ev_throw := apply evolves_throw; tc_solve.
Ltac ev_gets := apply evolves_gets; tc_solve.
Ltac ev_fail_if := apply evolves_fail_if; tc_solve.
Ltac ev_fail_after := apply evolves_fail_after; [tc_solve |].
Ltac ev_bind := apply evolves_bind; [tc_solve | |].
Ltac ev_collect := apply evolves_collect; [tc_solve |].
Ltac ev_forEach := apply evolves_forEach; [tc_solve |].
Ltac ev_modify := apply evolves_modify.

(** ** What each method of the generator touches *)

Variable target_apply :
  FnId -> ObjId -> list Param -> World -> World * list string * Outcome.

Variable faults : Faults.

Lemma Untargeted_this_app : Untargeted (@this_app World Param).
Proof. now split. Qed.

Lemma Untargeted_this_results : Untargeted (@this_results World Param).
Proof. now split. Qed.

Lemma Untargeted_targetDir : Untargeted (@targetDir World Param).
Proof. now split. Qed.

Lemma Untargeted_appClosed : Untargeted (@appClosed World Param).
Proof. now split. Qed.

Section Untargeted.

Context {X : Type} (f : State -> X) (Hf : Untargeted f).

Lemma applyCatch_keeps target this params qlabel :
  keeps f (applyCatch target_apply target this params qlabel).
Proof.
  intros s r s' H. unfold applyCatch in H.
  destruct (target_apply target (oid this) params (world s)) as [[w' stmts] out].
  assert (E : f (set_sqlLogger (fold_left SqlLogger_record stmts (this_sqlLogger s))
                   (set_world w' (note_applied (mkApplication target (oid this) params) s)))
              = f s).
  { now rewrite (untargeted_sqlLogger f Hf), (untargeted_world f Hf),
      (untargeted_applied f Hf). }
  destruct out; inversion H; subst; clear H;
    rewrite ?(untargeted_print f Hf); now rewrite E.
Qed.

Lemma runCase_keeps this label key target q :
  keeps f (runCase target_apply this label key target q).
Proof.
  unfold runCase, keeps.
  ev_bind.
  { ev_modify; intros s. now rewrite (untargeted_sqlLogger f Hf). }
  intros _. ev_bind; [apply applyCatch_keeps |].
  intros _. ev_bind; [ev_gets |].
  intros recorded.
  destruct (Nat.eqb (length recorded) 0); [| ev_ret].
  ev_bind; [| intros _; ev_ret].
  ev_modify; intros s. now rewrite (untargeted_print f Hf).
Qed.

Lemma runKey_keeps this label key :
  keeps f (runKey target_apply this label key).
Proof.
  unfold runKey, keeps.
  destruct (get this key) as [| target]; [ev_ret |].
  ev_bind; [ev_gets |].
  intros [qs |]; [| ev_ret].
  ev_bind.
  - destruct (Nat.eqb (length qs) 0); [| ev_ret].
    ev_bind; [| intros _; ev_ret].
    ev_modify; intros s. now rewrite (untargeted_metadata f Hf).
  - intros cases. ev_collect. intros q. apply runCase_keeps.
Qed.

Lemma runTargets_keeps this label :
  keeps f (runTargets target_apply this label).
Proof.
  unfold runTargets, keeps. ev_collect.
  intros key. apply runKey_keeps.
Qed.

Lemma runNested_keeps inst repoName key :
  keeps f (runNested target_apply inst repoName key).
Proof.
  unfold runNested. destruct (getOwn inst key).
  - ev_throw.
  - apply runTargets_keeps.
Qed.

End Untargeted.

(** ** Plain objects used as ordered maps *)

Lemma assign_keys_old {V} key (value : V) obj :
  key ∈ map fst obj -> map fst (assign key value obj) = map fst obj.
Proof.
  induction obj as [| [k v] rest IH]; cbn [assign map fst].
  - intros H. inversion H.
  - intros H. destruct (String.eqb_spec k key) as [-> | Hne]; [reflexivity |].
    cbn [map fst]. f_equal. apply IH.
    apply elem_of_cons in H as [H | H]; [congruence | exact H].
Qed.

Lemma assign_keys_new {V} key (value : V) obj :
  key ∉ map fst obj -> map fst (assign key value obj) = map fst obj ++ [key].
Proof.
  induction obj as [| [k v] rest IH]; cbn [assign map fst]; [reflexivity |].
  intros H. apply not_elem_of_cons in H as [Hne Hrest].
  destruct (String.eqb_spec k key) as [-> | _]; [congruence |].
  cbn [map fst app]. f_equal. now apply IH.
Qed.

Lemma assign_elem_of_keys {V} key (value : V) obj k :
  k ∈ map fst (assign key value obj) <-> k ∈ map fst obj \/ k = key.
Proof.
  destruct (decide (key ∈ map fst obj)) as [Hin | Hout].
  - rewrite (assign_keys_old key value obj Hin). split; [tauto |].
    intros [H | ->]; assumption.
  - rewrite (assign_keys_new key value obj Hout), elem_of_app, list_elem_of_singleton.
    tauto.
Qed.

Lemma property_assign {V} key (value : V) obj :
  property key (assign key value obj) = Some value.
Proof.
  induction obj as [| [k v] rest IH]; cbn [assign property].
  - now rewrite String.eqb_refl.
  - destruct (String.eqb k key) eqn:E; cbn [property]; now rewrite E.
Qed.

Lemma property_assign_other {V} key (value : V) obj k :
  k <> key -> property k (assign key value obj) = property k obj.
Proof.
  intros Hne. induction obj as [| [k' v] rest IH]; cbn [assign property].
  - destruct (String.eqb_spec key k); congruence.
  - destruct (String.eqb_spec k' key) as [-> | Hk]; cbn [property].
    + destruct (String.eqb_spec key k); congruence.
    + now rewrite IH.
Qed.

Lemma assign_values {V} (P : V -> Prop) key (value : V) obj :
  P value -> Forall (fun e => P (snd e)) obj ->
  Forall (fun e => P (snd e)) (assign key value obj).
Proof.
  intros Hv. induction 1 as [| [k v] rest Hk Hrest IH]; cbn [assign].
  - now repeat constructor.
  - destruct (String.eqb k key); constructor; assumption.
Qed.

Lemma property_elem_of {V} key (value : V) obj :
  property key obj = Some value -> (key, value) ∈ obj.
Proof.
  induction obj as [| [k v] rest IH]; cbn [property]; [discriminate |].
  destruct (String.eqb_spec k key) as [-> | _].
  - intros [= ->]. apply list_elem_of_here.
  - intros H. apply list_elem_of_further, IH, H.
Qed.

Lemma property_NoDup {V} key (value : V) obj :
  NoDup (map fst obj) -> (key, value) ∈ obj -> property key obj = Some value.
Proof.
  induction obj as [| [k v] rest IH]; cbn [property map fst].
  - intros _ H. inversion H.
  - intros Hnd H. apply NoDup_cons in Hnd as [Hk Hnd].
    apply elem_of_cons in H as [[= -> ->] | H].
    + now rewrite String.eqb_refl.
    + destruct (String.eqb_spec k key) as [-> | _]; [| now apply IH].
      exfalso. apply Hk. apply list_elem_of_fmap. now exists (key, value).
Qed.

(** ** runTargets: the blocks it returns *)

Lemma append_assoc (a b c : string) : (a +:+ b) +:+ c = a +:+ b +:+ c.
Proof.
  induction a as [| x a IH]; [reflexivity | exact (f_equal (String x) IH)].
Qed.

Lemma append_empty_r (a : string) : a +:+ "" = a.
Proof.
  induction a as [| x a IH]; [reflexivity | exact (f_equal (String x) IH)].
Qed.

Lemma queryLabel_parts label key nm :
  queryLabel label key nm = label +:+ "." +:+ key +:+ caseSuffix nm.
Proof.
  unfold queryLabel, caseSuffix.
  destruct nm as [[| c n] |]; cbn [Js.truthy];
    now rewrite ?append_assoc, ?append_empty_r.
Qed.

Lemma collect_Forall {A B} (P : A -> B -> Prop) (body : A -> M (list B)) xs :
  (forall x s d s', x ∈ xs -> body x s = (Ok d, s') -> Forall (P x) d) ->
  forall s d s', collect xs body s = (Ok d, s') ->
    Forall (fun b => exists x, x ∈ xs /\ P x b) d.
Proof.
  induction xs as [| x rest IH]; intros Hbody s d s' H; cbn [collect] in H.
  - inversion H; subst. constructor.
  - apply bind_ok_inv in H as (pushed & s1 & H1 & H).
    apply bind_ok_inv in H as (more & s2 & H2 & H).
    inversion H; subst. apply Forall_app. split.
    + eapply Forall_impl; [eapply Hbody; [apply list_elem_of_here | exact H1] |].
      intros b Hb. exists x. split; [apply list_elem_of_here | exact Hb].
    + eapply Forall_impl; [eapply IH; [| exact H2] |].
      * intros y t e t' Hy. apply Hbody. now apply list_elem_of_further.
      * intros b (y & Hy & Hb). exists y. split; [now apply list_elem_of_further | exact Hb].
Qed.

(** One invocation case yields no block or one block, under the label of
    the case. *)
Lemma runCase_blocks this label key target q s d s' :
  runCase target_apply this label key target q s = (Ok d, s') ->
  d = [] /\ queries (this_sqlLogger s') = [] \/
  queries (this_sqlLogger s') <> [] /\
  d = [block (queryLabel label key (q_name q)) (queries (this_sqlLogger s'))].
Proof.
  unfold runCase. intros H.
  apply bind_ok_inv in H as ([] & s1 & _ & H).
  apply bind_ok_inv in H as ([] & s2 & _ & H).
  apply bind_ok_inv in H as (recorded & s3 & H3 & H).
  inversion H3; subst; clear H3.
  destruct (queries (this_sqlLogger s3)) as [| stmt stmts] eqn:E; cbn [length Nat.eqb] in H.
  - apply bind_ok_inv in H as ([] & s4 & H4 & H).
    inversion H4; subst. inversion H; subst. left. now split.
  - inversion H; subst. right. rewrite E. now split.
Qed.

Lemma runKey_blocks this label key s d s' :
  runKey target_apply this label key s = (Ok d, s') ->
  Forall (caseBlock label key) d /\
  (d <> [] -> exists target, get this key = VFunction target).
Proof.
  unfold runKey. destruct (get this key) as [| target]; intros H.
  - inversion H; subst. split; [constructor | congruence].
  - split; [| eauto].
    apply bind_ok_inv in H as (found & s1 & _ & H).
    destruct found as [qs |]; [| inversion H; subst; constructor].
    apply bind_ok_inv in H as (cases & s2 & _ & H).
    eapply Forall_impl;
      [eapply (collect_Forall (fun q b => caseBlock label key b)); [| exact H] |].
    + intros q t e t' _ Hq.
      apply runCase_blocks in Hq as [[-> _] | [Hne ->]]; repeat constructor.
      exists (q_name q), (queries (this_sqlLogger t')). now split.
    + intros b (q & _ & Hb). exact Hb.
Qed.

Lemma runTargets_blocks this label s d s' :
  runTargets target_apply this label s = (Ok d, s') ->
  Forall (targetBlock this label) d.
Proof.
  unfold runTargets. intros H.
  eapply Forall_impl;
    [eapply (collect_Forall (fun key b =>
       caseBlock label key b /\ exists target, get this key = VFunction target));
       [| exact H] |].
  - intros key t e t' _ Hkey. apply runKey_blocks in Hkey as [Hall Hfn].
    destruct e as [| b e]; [constructor |].
    assert (Ht : exists target, get this key = VFunction target) by now apply Hfn.
    eapply Forall_impl; [exact Hall |]. intros b' Hb'. now split.
  - intros b (key & Hin & Hb & target & Hv). now exists key, target.
Qed.

(** ** process *)

Lemma process_inv R s s' :
  process target_apply R s = (Ok tt, s') ->
  exists normal nested s1 s2,
    is_Some (this_app s) /\
    runTargets target_apply (self (instance R)) (name R) s = (Ok normal, s1) /\
    (if String.eqb (name R) AccessRepository_name
     then collect (keys (instance R)) (runNested target_apply (instance R) (name R))
     else ret []) s1 = (Ok nested, s2) /\
    s' = set_results
           (assign (name R) (provenance :: normal ++ nested) (this_results s)) s2.
Proof.
  unfold process. intros H.
  apply bind_ok_inv in H as (a & s0 & Ha & H).
  unfold gets in Ha. injection Ha as <- <-.
  destruct (this_app s) as [a |] eqn:Eapp; [| discriminate].
  apply bind_ok_inv in H as (normal & s1 & H1 & H).
  apply bind_ok_inv in H as (nested & s2 & H2 & H).
  inversion H; subst; clear H.
  exists normal, nested, s1, s2. repeat split; eauto.
  f_equal. f_equal.
  transitivity (this_results s1).
  - destruct (String.eqb (name R) AccessRepository_name).
    + eapply (keeps_eq this_results); [| exact H2].
      unfold keeps. ev_collect. intros key.
      apply runNested_keeps, Untargeted_this_results.
    + now inversion H2.
  - eapply (keeps_eq this_results); [| exact H1].
    apply runTargets_keeps, Untargeted_this_results.
Qed.

Lemma process_keeps {X} (f : State -> X) R :
  Untargeted f -> (forall r s, f (set_results r s) = f s) ->
  keeps f (process target_apply R).
Proof.
  intros Hf Hres. unfold process, keeps.
  ev_bind; [ev_gets |]. intros [a |]; [| ev_throw].
  ev_bind; [now apply runTargets_keeps |]. intros normal.
  ev_bind.
  - destruct (String.eqb (name R) AccessRepository_name); [| ev_ret].
    ev_collect. intros key. now apply runNested_keeps.
  - intros nested. ev_modify. intros s. now rewrite Hres.
Qed.

Lemma process_results R s s' :
  process target_apply R s = (Ok tt, s') ->
  exists blocks,
    this_results s' = assign (name R) (provenance :: blocks) (this_results s).
Proof.
  intros H. apply process_inv in H as (normal & nested & s1 & s2 & _ & _ & _ & ->).
  now exists (normal ++ nested).
Qed.

(** The entries of the result mapping after the processing loop, when no
    name occurs twice. *)
Lemma processAll_results repos : forall s s',
  forEach repos (process target_apply) s = (Ok tt, s') ->
  NoDup (map fst (this_results s) ++ map name repos) ->
  Forall (fun e => headed (snd e)) (this_results s) ->
  map fst (this_results s') = map fst (this_results s) ++ map name repos /\
  Forall (fun e => headed (snd e)) (this_results s').
Proof.
  induction repos as [| R rest IH]; intros s s' H Hnd Hhd; cbn [forEach] in H.
  - inversion H; subst. cbn [map]. now rewrite app_nil_r.
  - apply bind_ok_inv in H as ([] & s1 & H1 & H).
    apply process_results in H1 as (blocks & E1).
    cbn [map] in Hnd.
    assert (Hnew : name R ∉ map fst (this_results s)).
    { apply NoDup_app in Hnd as (_ & Hdisj & _). intros Hin.
      apply (Hdisj _ Hin). apply list_elem_of_here. }
    assert (Ekeys : map fst (this_results s1) = map fst (this_results s) ++ [name R]).
    { rewrite E1. now apply assign_keys_new. }
    destruct (IH s1 s' H) as [Hkeys Hheads].
    + rewrite Ekeys, <- app_assoc. exact Hnd.
    + rewrite E1. apply (assign_values headed); [now exists blocks | exact Hhd].
    + split; [| exact Hheads].
      rewrite Hkeys, Ekeys, <- app_assoc. reflexivity.
Qed.

(** Without the assumption on the names: the keys as a set. *)
Lemma processAll_keys repos : forall s s' k,
  forEach repos (process target_apply) s = (Ok tt, s') ->
  k ∈ map fst (this_results s') <->
  k ∈ map fst (this_results s) \/ k ∈ map name repos.
Proof.
  induction repos as [| R rest IH]; intros s s' k H; cbn [forEach] in H.
  - inversion H; subst. cbn [map]. rewrite elem_of_nil. tauto.
  - apply bind_ok_inv in H as ([] & s1 & H1 & H).
    apply process_results in H1 as (blocks & E1).
    rewrite (IH s1 s' k H), E1, assign_elem_of_keys. cbn [map].
    rewrite elem_of_cons. tauto.
Qed.

Lemma NoDup_repository_names : NoDup repository_names.
Proof. apply (bool_decide_unpack _). vm_compute. reflexivity. Qed.

(** C10: when the processing loop over the fixed target list has
    completed, the result mapping has exactly one entry per repository of
    the list, in the order of the list, and the sequence of every entry
    starts with the provenance line, so it is not empty even for a
    repository without a captured block. *)
Theorem results_after_processing (repositories : list Repository) s s' :
  map name repositories = repository_names ->
  this_results s = [] ->
  forEach repositories (process target_apply) s = (Ok tt, s') ->
  map fst (this_results s') = repository_names /\
  Forall (fun e => exists blocks, snd e = provenance :: blocks /\ snd e <> [])
    (this_results s').
Proof.
  intros Hnames Hempty H.
  destruct (processAll_results repositories s s' H) as [Hkeys Hheads].
  - rewrite Hempty, Hnames. exact NoDup_repository_names.
  - rewrite Hempty. constructor.
  - split.
    + now rewrite Hkeys, Hempty, Hnames.
    + eapply Forall_impl; [exact Hheads |].
      intros e (blocks & E). exists blocks. rewrite E. now split.
Qed.

(** ** setup, write, stats and close *)

Lemma setup_ok (s s' : State) :
  setup faults s = (Ok tt, s') ->
  s' = set_app (Some NestApplication)
         (set_targetDir (Some ∅) (set_targetDir None s)).
Proof.
  unfold setup, bind, fail_after, fail_if, modify, gets, ret, throw.
  destruct (rm_error faults); [discriminate |].
  destruct (mkdir_error faults); [discriminate |]. cbn.
  destruct (init_error faults); [discriminate |].
  now intros [= <-].
Qed.

Lemma setup_throw (s : State) e s' :
  setup faults s = (Throw e, s') -> this_app s' = this_app s.
Proof.
  unfold setup, bind, fail_after, fail_if, modify, gets, ret, throw.
  destruct (rm_error faults); [now intros [= _ <-] |].
  destruct (mkdir_error faults); [now intros [= _ <-] |]. cbn.
  destruct (init_error faults); [now intros [= _ <-] | discriminate].
Qed.

Lemma writeFile_keeps {X} (f : State -> X) file content :
  (forall d s, f (set_targetDir d s) = f s) ->
  keeps f (writeFile faults file content).
Proof.
  intros Hf. unfold writeFile, keeps.
  ev_bind; [| intros _].
  - ev_fail_after. intros s. unfold writeFile_remains.
    destruct (writeFile_partial faults file), (targetDir s); now rewrite ?Hf.
  - ev_bind; [ev_gets |]. intros [files |]; [| ev_throw].
    ev_modify. intros s. now rewrite Hf.
Qed.

Lemma write_keeps {X} (f : State -> X) :
  (forall d s, f (set_targetDir d s) = f s) -> keeps f (write faults).
Proof.
  intros Hf. unfold write, keeps.
  ev_bind; [ev_gets |]. intros entries.
  ev_forEach. intros entry. now apply writeFile_keeps.
Qed.

Lemma forEach_writeFile entries : forall (s s' : State) files,
  forEach entries
    (fun entry => writeFile faults (sqlFile (fst entry)) (fileContent (snd entry))) s
    = (Ok tt, s') ->
  targetDir s = Some files ->
  targetDir s' = Some (written entries files).
Proof.
  induction entries as [| entry rest IH]; intros s s' files H Hdir; cbn [forEach] in H.
  - inversion H; subst. exact Hdir.
  - apply bind_ok_inv in H as ([] & s1 & H1 & H).
    unfold written. cbn [fold_left]. apply (IH s1 s' _ H).
    unfold writeFile in H1.
    apply bind_ok_inv in H1 as ([] & s0 & H0 & H1).
    assert (s0 = s) as ->.
    { unfold fail_after in H0. destruct (writeFile_error faults _); [discriminate |].
      now inversion H0. }
    apply bind_ok_inv in H1 as (dir & s2 & H2 & H1).
    unfold gets in H2. injection H2 as <- <-. rewrite Hdir in H1.
    now inversion H1.
Qed.

Lemma write_ok (s s' : State) files :
  write faults s = (Ok tt, s') ->
  targetDir s = Some files ->
  targetDir s' = Some (written (this_results s) files).
Proof.
  unfold write. intros H Hdir.
  apply bind_ok_inv in H as (entries & s0 & H0 & H).
  unfold gets in H0. injection H0 as <- <-.
  eapply forEach_writeFile; eassumption.
Qed.

Lemma written_lookup entries : forall files file content,
  written entries files !! file = Some content ->
  files !! file = Some content \/
  exists entry, entry ∈ entries /\ file = sqlFile (fst entry) /\
                content = fileContent (snd entry).
Proof.
  induction entries as [| entry rest IH]; intros files file content H;
    unfold written in *; cbn [fold_left] in H; [now left |].
  apply IH in H as [H | (e & He & H)].
  - destruct (decide (sqlFile (fst entry) = file)) as [E | Hne].
    + rewrite <- E, lookup_insert_eq in H. injection H as <-.
      right. exists entry. split; [apply list_elem_of_here | now split].
    + rewrite lookup_insert_ne in H by exact Hne. now left.
  - right. exists e. split; [now apply list_elem_of_further | exact H].
Qed.

Lemma written_is_Some entries : forall files file,
  is_Some (written entries files !! file) <->
  is_Some (files !! file) \/ file ∈ map (fun entry => sqlFile (fst entry)) entries.
Proof.
  induction entries as [| entry rest IH]; intros files file;
    unfold written in *; cbn [fold_left map].
  - rewrite elem_of_nil. tauto.
  - rewrite IH, elem_of_cons, lookup_insert_is_Some.
    destruct (decide (sqlFile (fst entry) = file)) as [E | Hne].
    + subst file. split; intros _; [right; left; reflexivity | left; left; reflexivity].
    + split.
      * intros [[E | [_ H]] | H]; [contradiction | now left | right; now right].
      * intros [H | [E | H]];
          [left; right; now split | symmetry in E; contradiction | now right].
Qed.

Lemma stats_ok (s : State) :
  stats s =
    (Ok tt,
     print Log ("Generated "
                  +:+ Js.ofNumber (length (concat (map snd (this_results s))))
                  +:+ " queries")
       (print Log ("Wrote " +:+ Js.ofNumber (length (map fst (this_results s)))
                     +:+ " files") s)).
Proof. reflexivity. Qed.

Lemma close_keeps {X} (f : State -> X) :
  (forall s, f (note_closed s) = f s) -> keeps f (close faults).
Proof.
  intros Hf. unfold close, keeps.
  ev_bind; [ev_gets |]. intros [a |]; [| ev_ret].
  ev_bind; [| intros _; ev_fail_if].
  ev_modify. intros s. now rewrite Hf.
Qed.

Lemma close_closes (s : State) :
  is_Some (this_app s) ->
  appClosed (snd (close faults s)) = S (appClosed s).
Proof.
  intros [a Ha]. unfold close, bind, gets, modify, fail_if. rewrite Ha.
  now destruct (close_error faults).
Qed.

Lemma close_nothing (s : State) :
  this_app s = None -> close faults s = (Ok tt, s).
Proof. intros Ha. unfold close, bind, gets. now rewrite Ha. Qed.

(** ** run *)

Section Run.

Variable repositories : list Repository.

Lemma run_ok_inv s s' :
  run target_apply faults repositories s = (Ok tt, s') ->
  exists s1 s2 s3 s4,
    setup faults s = (Ok tt, s1) /\
    forEach repositories (process target_apply) s1 = (Ok tt, s2) /\
    write faults s2 = (Ok tt, s3) /\
    stats s3 = (Ok tt, s4) /\
    close faults s4 = (Ok tt, s').
Proof.
  unfold run, try_finally. intros H.
  destruct (phases target_apply faults repositories s) as [r s4] eqn:Ebody.
  destruct (close faults s4) as [[[] | e] s5] eqn:Eclose; [| discriminate].
  injection H as -> ->. unfold phases in Ebody.
  apply bind_ok_inv in Ebody as ([] & s1 & H1 & Ebody).
  apply bind_ok_inv in Ebody as ([] & s2 & H2 & Ebody).
  apply bind_ok_inv in Ebody as ([] & s3 & H3 & Ebody).
  exists s1, s2, s3, s4. now repeat split.
Qed.

Lemma processAll_keeps {X} (f : State -> X) :
  Untargeted f -> (forall r s, f (set_results r s) = f s) ->
  keeps f (forEach repositories (process target_apply)).
Proof.
  intros Hf Hres. unfold keeps. ev_forEach. intros R. now apply process_keeps.
Qed.

(** After a run that completes, the target directory holds what [write]
    wrote into the emptied directory: one file per entry of the result
    mapping. *)
Lemma run_ok_files s s' :
  run target_apply faults repositories s = (Ok tt, s') ->
  exists s2,
    forEach repositories (process target_apply)
      (set_app (Some NestApplication)
         (set_targetDir (Some ∅) (set_targetDir None s))) = (Ok tt, s2) /\
    this_results s' = this_results s2 /\
    targetDir s' = Some (written (this_results s2) ∅).
Proof.
  intros H. apply run_ok_inv in H as (s1 & s2 & s3 & s4 & H1 & H2 & H3 & H4 & H5).
  apply setup_ok in H1. subst s1. exists s2. split; [exact H2 |].
  rewrite stats_ok in H4. injection H4 as <-.
  rewrite (keeps_eq this_results _ _ _ _ (close_keeps this_results (fun _ => eq_refl)) H5).
  rewrite (keeps_eq targetDir _ _ _ _ (close_keeps targetDir (fun _ => eq_refl)) H5).
  cbn [this_results targetDir print].
  rewrite (keeps_eq this_results _ _ _ _ (write_keeps this_results (fun _ _ => eq_refl)) H3).
  split; [reflexivity |].
  apply (write_ok _ _ _ H3).
  now rewrite (keeps_eq targetDir _ _ _ _
                 (processAll_keeps targetDir Untargeted_targetDir (fun _ _ => eq_refl)) H2).
Qed.

End Run.

Section RunFacts.

Variable repositories : list Repository.

(** C1, as amended: after a run that completes, the output directory holds
    exactly the files derived from the repositories of the target list, one
    for every repository, whether or not it produced a block. *)
Theorem files_after_run meta w dir s' :
  run target_apply faults repositories (initial meta w dir) = (Ok tt, s') ->
  exists files,
    targetDir s' = Some files /\
    forall file,
      is_Some (files !! file) <->
      exists R, R ∈ repositories /\ file = sqlFile (name R).
Proof.
  intros H. apply run_ok_files in H as (s2 & H2 & _ & Hdir).
  exists (written (this_results s2) ∅). split; [exact Hdir |].
  intros file. rewrite written_is_Some, lookup_empty, list_elem_of_fmap.
  split.
  - intros [[x Hx] | ([k data] & -> & Hin)]; [discriminate |].
    assert (Hk : k ∈ map fst (this_results s2)).
    { apply list_elem_of_fmap. now exists (k, data). }
    apply (processAll_keys _ _ _ _ H2) in Hk as [Hk | Hk]; [inversion Hk |].
    apply list_elem_of_fmap in Hk as (R & -> & HR). now exists R.
  - intros (R & HR & ->). right.
    assert (Hk : name R ∈ map fst (this_results s2)).
    { apply (processAll_keys _ _ _ _ H2). right.
      apply list_elem_of_fmap. now exists R. }
    apply list_elem_of_fmap in Hk as ([k data] & Hk & Hin). cbn [fst] in Hk.
    exists (k, data). cbn [fst]. now rewrite Hk.
Qed.

Lemma main_status (s : State) :
  fst (main target_apply faults repositories s) =
    match fst (run target_apply faults repositories s) with
    | Ok _ => 0
    | Throw _ => 1
    end.
Proof.
  unfold main. now destruct (run target_apply faults repositories s) as [[[] | e] s'].
Qed.

Lemma run_finally (s : State) :
  snd (run target_apply faults repositories s)
    = snd (close faults (snd (phases target_apply faults repositories s))).
Proof.
  unfold run, try_finally.
  destruct (phases target_apply faults repositories s) as [r s1].
  cbn [snd]. now destruct (close faults s1) as [[[] | e] s2].
Qed.

Lemma run_throws_with_phases (s : State) e s1 :
  phases target_apply faults repositories s = (Throw e, s1) ->
  exists e', fst (run target_apply faults repositories s) = Throw e'.
Proof.
  unfold run, try_finally. intros ->.
  destruct (close faults s1) as [[[] | e'] s2]; cbn [fst]; eauto.
Qed.

Lemma stats_keeps {X} (f : State -> X) :
  (forall c line s, f (print c line s) = f s) -> keeps f (@stats World Param).
Proof.
  intros Hf. unfold stats, keeps.
  ev_bind; [ev_gets |]. intros entries.
  ev_bind; [| intros _]; ev_modify; intros s; now rewrite Hf.
Qed.

(** What the phases after a completed [setup] leave alone. *)
Lemma phases_after_setup {X} (f : State -> X) (s s1 : State) :
  Untargeted f ->
  (forall r t, f (set_results r t) = f t) ->
  (forall d t, f (set_targetDir d t) = f t) ->
  setup faults s = (Ok tt, s1) ->
  f (snd (phases target_apply faults repositories s)) = f s1.
Proof.
  intros Hf Hres Hdir H1. unfold phases. rewrite (bind_ok _ _ _ _ _ H1).
  destruct (bind (forEach repositories (process target_apply)) _ s1) as [r s4] eqn:E.
  cbn [snd]. revert E. apply (keeps_eq f). unfold keeps.
  ev_bind; [now apply processAll_keeps |]. intros _.
  ev_bind; [now apply write_keeps |]. intros _.
  apply stats_keeps. apply (untargeted_print f Hf).
Qed.

(** C5: the teardown runs on every path, whether the phases complete or
    setup, processing or writing throws, and it closes the application
    context whenever setup has created one (when setup throws, none has
    been stored yet and the teardown finds nothing to close); the process
    exits with status 0 when the run completes and with status 1 as soon as
    a phase (or the teardown itself) throws. *)
Theorem teardown_and_exit_status (s : State) :
  let final := snd (run target_apply faults repositories s) in
  let status := fst (main target_apply faults repositories s) in
  final = snd (close faults (snd (phases target_apply faults repositories s))) /\
  (forall e s1, setup faults s = (Throw e, s1) ->
     final = snd (close faults s1) /\ status = 1 /\
     (this_app s = None -> final = s1)) /\
  (forall s1, setup faults s = (Ok tt, s1) ->
     appClosed final = S (appClosed s) /\
     (forall e s2,
        forEach repositories (process target_apply) s1 = (Throw e, s2) ->
        final = snd (close faults s2) /\ status = 1) /\
     (forall s2, forEach repositories (process target_apply) s1 = (Ok tt, s2) ->
        (forall e s3, write faults s2 = (Throw e, s3) ->
           final = snd (close faults s3) /\ status = 1) /\
        (forall s3 s4, write faults s2 = (Ok tt, s3) -> stats s3 = (Ok tt, s4) ->
           final = snd (close faults s4) /\
           status = match fst (close faults s4) with Ok _ => 0 | Throw _ => 1 end))).
Proof.
  cbn zeta. rewrite main_status, run_finally.
  split; [reflexivity |]. split.
  - intros e s1 H1.
    assert (E : phases target_apply faults repositories s = (Throw e, s1)).
    { unfold phases. now apply bind_throw. }
    rewrite E. split; [reflexivity |]. split.
    + now destruct (run_throws_with_phases s e s1 E) as [e' ->].
    + intros Hnone. cbn [snd]. rewrite close_nothing; [reflexivity |].
      now rewrite (setup_throw _ _ _ H1).
  - intros s1 H1. split; [| split].
    + rewrite close_closes.
      * f_equal.
        rewrite (phases_after_setup appClosed s s1 Untargeted_appClosed
                   (fun _ _ => eq_refl) (fun _ _ => eq_refl) H1).
        now rewrite (setup_ok _ _ H1).
      * rewrite (phases_after_setup this_app s s1 Untargeted_this_app
                   (fun _ _ => eq_refl) (fun _ _ => eq_refl) H1).
        rewrite (setup_ok _ _ H1). now eexists.
    + intros e s2 H2.
      assert (E : phases target_apply faults repositories s = (Throw e, s2)).
      { unfold phases. rewrite (bind_ok _ _ _ _ _ H1). now apply bind_throw. }
      rewrite E. split; [reflexivity |].
      now destruct (run_throws_with_phases s e s2 E) as [e' ->].
    + intros s2 H2. split.
      * intros e s3 H3.
        assert (E : phases target_apply faults repositories s = (Throw e, s3)).
        { unfold phases. rewrite (bind_ok _ _ _ _ _ H1), (bind_ok _ _ _ _ _ H2).
          now apply bind_throw. }
        rewrite E. split; [reflexivity |].
        now destruct (run_throws_with_phases s e s3 E) as [e' ->].
      * intros s3 s4 H3 H4.
        assert (E : phases target_apply faults repositories s = (Ok tt, s4)).
        { unfold phases.
          now rewrite (bind_ok _ _ _ _ _ H1), (bind_ok _ _ _ _ _ H2),
            (bind_ok _ _ _ _ _ H3). }
        rewrite E. split; [reflexivity |].
        unfold run, try_finally. rewrite E.
        now destruct (close faults s4) as [[[] | e] s5].
Qed.

End RunFacts.

(** ** The content of the files and the summary *)

Lemma join_cons sep x xs :
  Js.join sep (x :: xs) = x +:+ Js.flatten (map (String.append sep) xs).
Proof.
  revert x. induction xs as [| y ys IH]; intros x.
  - cbn. now rewrite append_empty_r.
  - change (Js.join sep (x :: y :: ys)) with (x +:+ sep +:+ Js.join sep (y :: ys)).
    rewrite IH. cbn [map Js.flatten fold_right]. now rewrite append_assoc.
Qed.

Lemma fileContent_layout blocks :
  fileContent (provenance :: blocks) = layout blocks.
Proof. unfold fileContent, layout. now rewrite join_cons, append_assoc. Qed.

Lemma processAll_headed repos : forall s s',
  forEach repos (process target_apply) s = (Ok tt, s') ->
  Forall (fun e => headed (snd e)) (this_results s) ->
  Forall (fun e => headed (snd e)) (this_results s').
Proof.
  induction repos as [| R rest IH]; intros s s' H Hhd; cbn [forEach] in H.
  - now inversion H; subst.
  - apply bind_ok_inv in H as ([] & s1 & H1 & H).
    apply process_results in H1 as (blocks & E1).
    apply (IH s1 s' H). rewrite E1.
    apply (assign_values headed); [now exists blocks | exact Hhd].
Qed.

(** Every file of a completed run is laid out from one entry of the result
    mapping. *)
Lemma run_file_contents repos meta w dir s' :
  run target_apply faults repos (initial meta w dir) = (Ok tt, s') ->
  exists files,
    targetDir s' = Some files /\
    forall file content,
      files !! file = Some content ->
      exists repoName blocks,
        (repoName, provenance :: blocks) ∈ this_results s' /\
        file = sqlFile repoName /\
        content = layout blocks.
Proof.
  intros H. apply run_ok_files in H as (s2 & H2 & Hres & Hdir).
  exists (written (this_results s2) ∅). split; [exact Hdir |].
  intros file content Hfile.
  apply written_lookup in Hfile as [Hfile | ([k data] & Hin & -> & ->)];
    [now rewrite lookup_empty in Hfile |].
  pose proof (processAll_headed _ _ _ H2 (List.Forall_nil _)) as Hhd.
  rewrite Forall_forall in Hhd. destruct (Hhd _ Hin) as [blocks E].
  cbn [fst snd] in *. subst data.
  exists k, blocks. rewrite Hres. split; [exact Hin |].
  split; [reflexivity | apply fileContent_layout].
Qed.

Lemma flat_length (entries : list (string * list string)) :
  Forall (fun e => headed (snd e)) entries ->
  length (concat (map snd entries)) = length entries + blockCount entries.
Proof.
  unfold blockCount. induction 1 as [| [k data] rest [blocks E] _ IH];
    [reflexivity |].
  cbn [map concat snd list_sum length] in *. subst data.
  rewrite length_app, IH. simpl. lia.
Qed.

(** The two lines of the summary, for a run that completes: the second
    number counts every element of every sequence, provenance lines
    included. *)
Lemma run_summary repos meta w dir s' :
  run target_apply faults repos (initial meta w dir) = (Ok tt, s') ->
  exists before,
    console s' =
      before ++
      [ (Log, "Wrote " +:+ Js.ofNumber (length (this_results s')) +:+ " files");
        (Log, "Generated "
                +:+ Js.ofNumber (length (this_results s') + blockCount (this_results s'))
                +:+ " queries") ].
Proof.
  intros H.
  pose proof (run_ok_files _ _ _ H) as (s2' & H2' & Hres & _).
  apply run_ok_inv in H as (s1 & s2 & s3 & s4 & H1 & H2 & H3 & H4 & H5).
  apply setup_ok in H1. subst s1.
  rewrite H2 in H2'. injection H2' as <-.
  rewrite stats_ok in H4. injection H4 as <-.
  rewrite (keeps_eq console _ _ _ _ (close_keeps console (fun _ => eq_refl)) H5).
  rewrite Hres.
  rewrite (keeps_eq this_results _ _ _ _
             (write_keeps this_results (fun _ _ => eq_refl)) H3).
  exists (console s3). cbn [console print]. rewrite <- app_assoc. cbn [app].
  rewrite length_map, flat_length; [reflexivity |].
  exact (processAll_headed _ _ _ H2 (List.Forall_nil _)).
Qed.

(** ** Failing invocations *)

Lemma fold_record statements : forall l,
  queries (fold_left SqlLogger_record statements l) = queries l ++ statements.
Proof.
  induction statements as [| q rest IH]; intros l; cbn [fold_left].
  - now rewrite app_nil_r.
  - rewrite IH. cbn [SqlLogger_record queries]. now rewrite <- app_assoc.
Qed.

(** A call whose promise rejects: the error is printed, the loop goes on,
    and the case yields a block exactly when statements were recorded
    before the rejection. *)
Lemma runCase_rejected this label key target q (s : State) w' statements e :
  target_apply target (oid this) (q_params q) (world s) = (w', statements, Rejected e) ->
  exists s',
    runCase target_apply this label key target q s =
      (Ok (match statements with
           | [] => []
           | _ => [block (queryLabel label key (q_name q)) statements]
           end), s') /\
    (Error, queryLabel label key (q_name q) +:+ " error: " +:+ e) ∈ console s'.
Proof.
  intros E. unfold runCase, bind, modify, gets, applyCatch.
  cbn [world set_sqlLogger]. rewrite E.
  cbn [this_sqlLogger print set_sqlLogger set_world note_applied].
  rewrite fold_record. cbn [SqlLogger_clear queries app].
  destruct statements as [| stmt rest]; cbn [length Nat.eqb]; eexists; (split; [reflexivity |]);
    cbn [console print set_sqlLogger set_world note_applied];
    rewrite !elem_of_app, !list_elem_of_singleton; tauto.
Qed.

(** A call that throws before it returns a promise is not caught. *)
Lemma runCase_thrown this label key target q (s : State) w' statements e :
  target_apply target (oid this) (q_params q) (world s) = (w', statements, Thrown e) ->
  fst (runCase target_apply this label key target q s) = Throw e.
Proof.
  intros E. unfold runCase, bind, modify, gets, applyCatch.
  cbn [world set_sqlLogger]. now rewrite E.
Qed.

(** ** The history of calls *)

Lemma runCase_applied this label key target q (s : State) r s' :
  runCase target_apply this label key target q s = (r, s') ->
  applied s' = applied s ++ [mkApplication target (oid this) (q_params q)] /\
  metadata s' = metadata s.
Proof.
  unfold runCase, bind, modify, gets, applyCatch, ret.
  cbn [world set_sqlLogger].
  destruct (target_apply target (oid this) (q_params q) (world s)) as [[w' stmts] out].
  destruct out;
    repeat match goal with
           | |- context [if ?b then _ else _] => destruct b
           end;
    intros [= <- <-]; now split.
Qed.

Lemma cases_applied this label key target cases : forall (s : State) d s',
  collect cases (runCase target_apply this label key target) s = (Ok d, s') ->
  applied s' =
    applied s ++ map (fun q => mkApplication target (oid this) (q_params q)) cases /\
  metadata s' = metadata s.
Proof.
  induction cases as [| q rest IH]; intros s d s' H; cbn [collect] in H.
  - inversion H; subst. cbn [map]. now rewrite app_nil_r.
  - apply bind_ok_inv in H as (pushed & s1 & H1 & H).
    apply bind_ok_inv in H as (more & s2 & H2 & H).
    injection H as _ <-.
    apply runCase_applied in H1 as [E1 M1].
    apply IH in H2 as [E2 M2].
    rewrite E2, E1, M2, M1, <- app_assoc. now split.
Qed.

(** A visit of a method whose metadata is the empty array, or the array
    that an earlier visit has filled with the one case without arguments:
    one call, without arguments, however the call ends. *)
Lemma runKey_default this label key f (s : State) r s' :
  get this key = VFunction f ->
  metadata s !! f = Some [] \/ metadata s !! f = Some [mkQuery None []] ->
  runKey target_apply this label key s = (r, s') ->
  applied s' = applied s ++ [mkApplication f (oid this) []] /\
  metadata s' !! f = Some [mkQuery None []].
Proof.
  intros Hget Hmeta H. unfold runKey in H. rewrite Hget in H.
  unfold bind at 1 in H. unfold gets at 1 in H.
  destruct Hmeta as [E | E]; rewrite E in H; cbn [length Nat.eqb app] in H.
  - unfold bind at 1 2 in H. unfold modify, ret in H.
    cbn [collect] in H.
    apply bind_inv in H as [(pushed & s1 & H1 & H) | (e & H1 & _)].
    + apply runCase_applied in H1 as [E1 M1]. cbn [q_params applied metadata set_metadata] in *.
      unfold bind, ret in H. injection H as _ <-.
      rewrite E1, M1, lookup_insert_eq. now split.
    + apply runCase_applied in H1 as [E1 M1]. cbn [q_params applied metadata set_metadata] in *.
      rewrite E1, M1, lookup_insert_eq. now split.
  - unfold bind at 1 in H. unfold ret at 1 in H. cbn [collect] in H.
    apply bind_inv in H as [(pushed & s1 & H1 & H) | (e & H1 & _)].
    + apply runCase_applied in H1 as [E1 M1]. cbn [q_params] in *.
      unfold bind, ret in H. injection H as _ <-.
      rewrite E1, M1. now split.
    + apply runCase_applied in H1 as [E1 M1]. cbn [q_params] in *.
      rewrite E1, M1. now split.
Qed.

Lemma applicationsOf_other f g (o : ObjId) (cases : list (@GenerateSqlQueries Param)) :
  g <> f ->
  applicationsOf f (map (fun q => mkApplication g o (q_params q)) cases) = [].
Proof.
  intros Hne. unfold applicationsOf.
  induction cases as [| q rest IH]; [reflexivity |].
  cbn [map List.filter a_target].
  destruct (Nat.eqb_spec g f); [contradiction | exact IH].
Qed.

(** A completed visit of any other property calls only its own function
    object and leaves the metadata of [f] alone. *)
Lemma runKey_other this label key f (s : State) d s' :
  isTarget f (get this key) = false ->
  runKey target_apply this label key s = (Ok d, s') ->
  exists calls,
    applied s' = applied s ++ calls /\
    applicationsOf f calls = [] /\
    metadata s' !! f = metadata s !! f.
Proof.
  intros Hf H. unfold runKey in H.
  destruct (get this key) as [| g]; cbn [isTarget] in Hf.
  - injection H as _ <-. exists []. now rewrite app_nil_r.
  - apply Nat.eqb_neq in Hf.
    apply bind_ok_inv in H as (found & s0 & H0 & H).
    unfold gets in H0. injection H0 as <- <-.
    destruct (metadata s !! g) as [qs |] eqn:E.
    2:{ injection H as _ <-. exists []. now rewrite app_nil_r. }
    apply bind_ok_inv in H as (cases & s1 & H1 & H).
    apply cases_applied in H as [Ea Em].
    exists (map (fun q => mkApplication g (oid this) (q_params q)) cases).
    assert (Hs1 : applied s1 = applied s /\ metadata s1 !! f = metadata s !! f).
    { destruct (Nat.eqb (length qs) 0).
      - apply bind_ok_inv in H1 as ([] & s2 & H2 & H1).
        injection H2 as <-. injection H1 as _ <-.
        cbn [applied metadata set_metadata]. split; [reflexivity |].
        now apply lookup_insert_ne.
      - now injection H1 as _ <-. }
    destruct Hs1 as [Ea1 Em1]. rewrite Ea, Em, Ea1, Em1.
    split; [reflexivity |]. split; [| reflexivity].
    now apply applicationsOf_other.
Qed.

Lemma visits_applied this label f names : forall (s : State) d s',
  metadata s !! f = Some [] \/ metadata s !! f = Some [mkQuery None []] ->
  collect names (runKey target_apply this label) s = (Ok d, s') ->
  exists calls,
    applied s' = applied s ++ calls /\
    applicationsOf f calls =
      replicate (length (List.filter (fun key => isTarget f (get this key)) names))
        (mkApplication f (oid this) []).
Proof.
  induction names as [| key rest IH]; intros s d s' Hmeta H; cbn [collect] in H.
  - injection H as _ <-. exists []. now rewrite app_nil_r.
  - apply bind_ok_inv in H as (pushed & s1 & H1 & H).
    apply bind_ok_inv in H as (more & s2 & H2 & H).
    injection H as _ <-. cbn [List.filter].
    destruct (isTarget f (get this key)) eqn:Ekey.
    + assert (Hget : get this key = VFunction f).
      { destruct (get this key) as [| g]; cbn [isTarget] in Ekey; [discriminate |].
        apply Nat.eqb_eq in Ekey. now subst g. }
      apply (runKey_default _ _ _ _ _ _ _ Hget Hmeta) in H1 as [E1 M1].
      destruct (IH s1 more s2 (or_intror M1) H2) as (calls & E2 & Hcalls).
      exists (mkApplication f (oid this) [] :: calls).
      rewrite E2, E1, <- app_assoc. split; [reflexivity |].
      unfold applicationsOf in *. cbn [List.filter a_target length replicate].
      now rewrite Nat.eqb_refl, Hcalls.
    + apply (runKey_other _ _ _ f _ _ _ Ekey) in H1 as (calls1 & E1 & Hnone & M1).
      rewrite <- M1 in Hmeta.
      destruct (IH s1 more s2 Hmeta H2) as (calls & E2 & Hcalls).
      exists (calls1 ++ calls). rewrite E2, E1, <- app_assoc.
      split; [reflexivity |].
      unfold applicationsOf in *. now rewrite List.filter_app, Hnone, Hcalls.
Qed.

(** C6: a method whose capture metadata is the empty case list is called
    exactly once, with the empty argument list: every visit of the method
    adds that one call to the history, however the call ends, and a walk
    of [runTargets] that completes has called it once per property name
    that leads to it, each time without arguments (once, for a method
    under one name). *)
Theorem empty_metadata_called_once this label f :
  (forall key (s : State),
     get this key = VFunction f ->
     metadata s !! f = Some [] ->
     applied (snd (runKey target_apply this label key s))
       = applied s ++ [mkApplication f (oid this) []]) /\
  (forall (s : State) d s',
     metadata s !! f = Some [] ->
     runTargets target_apply this label s = (Ok d, s') ->
     exists calls,
       applied s' = applied s ++ calls /\
       applicationsOf f calls = replicate (visits f this) (mkApplication f (oid this) [])).
Proof.
  split.
  - intros key s Hget Hmeta.
    destruct (runKey target_apply this label key s) as [r s'] eqn:E.
    cbn [snd]. now apply (runKey_default _ _ _ _ _ _ _ Hget (or_introl Hmeta)) in E as [E _].
  - intros s d s' Hmeta H. unfold runTargets in H.
    exact (visits_applied this label f (getPropertyNames this) s d s' (or_introl Hmeta) H).
Qed.

(** ** What a run calls and what it does to the metadata store *)

Lemma defaulted_is_Some (m m' : gmap FnId (list (@GenerateSqlQueries Param))) f :
  defaulted m m' -> is_Some (m' !! f) -> is_Some (m !! f).
Proof.
  intros H Hs. destruct (H f) as [E | [E _]]; [now rewrite <- E | now rewrite E].
Qed.

#[local] Instance traced_preorder : PreOrder (@traced Param).
Proof.
  split.
  - intros [m a]. split; [intros f; now left |].
    exists []. cbn [fst snd]. now rewrite app_nil_r.
  - intros [m1 a1] [m2 a2] [m3 a3] [D12 (c12 & E12 & F12)] [D23 (c23 & E23 & F23)].
    unfold traced. cbn [fst snd] in *. split.
    + intros f. destruct (D12 f) as [E | [E E']], (D23 f) as [G | [G G']].
      * left. congruence.
      * right. split; congruence.
      * right. split; congruence.
      * rewrite E' in G. discriminate.
    + exists (c12 ++ c23). split; [now rewrite E23, E12, app_assoc |].
      apply Forall_app. split; [exact F12 |].
      eapply Forall_impl; [exact F23 |].
      intros c Hc. now apply (defaulted_is_Some m1 m2).
Qed.

Lemma keeps_traced {A} (m : M A) :
  keeps trace m -> evolves traced trace m.
Proof.
  intros H s r s' E. apply (keeps_eq trace m s r s' H) in E. rewrite E.
  reflexivity.
Qed.

Lemma cases_traced this label key target cases : forall (s : State) r s',
  collect cases (runCase target_apply this label key target) s = (r, s') ->
  metadata s' = metadata s /\
  exists calls,
    applied s' = applied s ++ calls /\
    Forall (fun c => a_target c = target) calls.
Proof.
  induction cases as [| q rest IH]; intros s r s' H; cbn [collect] in H.
  - injection H as _ <-. split; [reflexivity |]. exists []. now rewrite app_nil_r.
  - apply bind_inv in H as [(pushed & s1 & H1 & H) | (e & H1 & _)].
    + apply runCase_applied in H1 as [E1 M1].
      apply bind_inv in H as [(more & s2 & H2 & H) | (e & H2 & _)].
      * injection H as _ <-. apply IH in H2 as (M2 & calls & E2 & F2).
        split; [congruence |].
        exists (mkApplication target (oid this) (q_params q) :: calls).
        rewrite E2, E1, <- app_assoc. split; [reflexivity |]. now constructor.
      * apply IH in H2 as (M2 & calls & E2 & F2). split; [congruence |].
        exists (mkApplication target (oid this) (q_params q) :: calls).
        rewrite E2, E1, <- app_assoc. split; [reflexivity |]. now constructor.
    + apply runCase_applied in H1 as [E1 M1]. split; [exact M1 |].
      exists [mkApplication target (oid this) (q_params q)].
      split; [exact E1 |]. now repeat constructor.
Qed.

Lemma runKey_traced this label key :
  evolves traced trace (runKey target_apply this label key).
Proof.
  intros s r s' H. unfold runKey in H.
  destruct (get this key) as [| target]; [injection H as _ <-; reflexivity |].
  apply bind_inv in H as [(found & s0 & H0 & H) | (e & H0 & _)]; [| discriminate].
  unfold gets in H0. injection H0 as <- <-.
  destruct (metadata s !! target) as [qs |] eqn:Emeta;
    [| injection H as _ <-; reflexivity].
  destruct qs as [| q qs]; cbn [length Nat.eqb app] in H.
  - apply bind_inv in H as [(cases & s1 & H1 & H) | (e & H1 & _)]; [| discriminate].
    unfold bind, modify, ret in H1. injection H1 as <- <-.
    apply cases_traced in H as (M & calls & E & F).
    cbn [metadata applied set_metadata] in *.
    unfold traced, trace. cbn [fst snd]. split.
    + intros f. rewrite M. destruct (decide (target = f)) as [<- | Hne].
      * right. now rewrite lookup_insert_eq.
      * left. now rewrite lookup_insert_ne.
    + exists calls. split; [exact E |].
      eapply Forall_impl; [exact F |]. intros c ->. now rewrite Emeta.
  - apply bind_inv in H as [(cases & s1 & H1 & H) | (e & H1 & _)]; [| discriminate].
    injection H1 as <- <-.
    apply cases_traced in H as (M & calls & E & F).
    unfold traced, trace. cbn [fst snd]. split.
    + intros f. left. now rewrite M.
    + exists calls. split; [exact E |].
      eapply Forall_impl; [exact F |]. intros c ->. now rewrite Emeta.
Qed.

Lemma runTargets_traced this label :
  evolves traced trace (runTargets target_apply this label).
Proof. unfold runTargets. ev_collect. intros key. apply runKey_traced. Qed.

Lemma process_traced R : evolves traced trace (process target_apply R).
Proof.
  unfold process. ev_bind; [ev_gets |]. intros [a |]; [| ev_throw].
  ev_bind; [apply runTargets_traced |]. intros normal.
  ev_bind.
  - destruct (String.eqb (name R) AccessRepository_name); [| ev_ret].
    ev_collect. intros key. unfold runNested.
    destruct (getOwn (instance R) key); [ev_throw | apply runTargets_traced].
  - intros nested. ev_modify. intros s. reflexivity.
Qed.

Lemma setup_keeps_trace : keeps (@trace World Param) (setup faults).
Proof.
  unfold setup, keeps.
  ev_bind; [ev_fail_after; now intros s |]. intros _.
  ev_bind; [ev_modify; now intros s |]. intros _.
  ev_bind; [ev_fail_if |]. intros _.
  ev_bind; [ev_gets |]. intros dir.
  ev_bind; [destruct dir; [ev_throw | ev_modify; now intros s] |]. intros _.
  ev_bind; [ev_fail_if |]. intros _.
  ev_modify. now intros s.
Qed.

Lemma run_traced repositories :
  evolves traced trace (run target_apply faults repositories).
Proof.
  unfold run. apply evolves_try_finally; [tc_solve | |].
  - unfold phases.
    ev_bind; [apply keeps_traced, setup_keeps_trace |]. intros _.
    ev_bind; [ev_forEach; intros R; apply process_traced |]. intros _.
    ev_bind; [apply keeps_traced, write_keeps; now intros d s |]. intros _.
    apply keeps_traced, stats_keeps. now intros c line s.
  - apply keeps_traced, close_keeps. now intros s.
Qed.

(** X9: however a run ends, every call in its history is a call of a
    function object that carried capture metadata when the run started:
    a method without the annotation is never invoked. *)
Theorem only_annotated_methods_called repositories (s : State) :
  exists calls,
    applied (snd (run target_apply faults repositories s)) = applied s ++ calls /\
    Forall (fun c => is_Some (metadata s !! a_target c)) calls.
Proof.
  destruct (run target_apply faults repositories s) as [r s'] eqn:E.
  apply run_traced in E as [_ H]. exact H.
Qed.

(** X10: however a run ends, the metadata store has the same annotated
    functions as before, every non-empty case list is untouched, and an
    empty case list is either untouched or has become the list of the one
    case without arguments. *)
Theorem metadata_only_defaulted repositories (s : State) :
  let s' := snd (run target_apply faults repositories s) in
  (forall f, metadata s !! f = None -> metadata s' !! f = None) /\
  (forall f q qs, metadata s !! f = Some (q :: qs) ->
     metadata s' !! f = Some (q :: qs)) /\
  (forall f, metadata s !! f = Some [] ->
     metadata s' !! f = Some [] \/ metadata s' !! f = Some [mkQuery None []]).
Proof.
  cbn zeta. destruct (run target_apply faults repositories s) as [r s'] eqn:E.
  apply run_traced in E as [D _]. cbn [snd fst trace] in *.
  split; [| split].
  - intros f Hf. destruct (D f) as [G | [G _]]; congruence.
  - intros f q qs Hf. destruct (D f) as [G | [G _]]; congruence.
  - intros f Hf. destruct (D f) as [G | [_ G]]; [left; congruence | now right].
Qed.

(** ** What a walk does with each kind of property *)

Lemma collect_nothing {A B} (body : A -> M (list B)) (s : State) xs :
  (forall x, x ∈ xs -> body x s = (Ok [], s)) ->
  collect xs body s = (Ok [], s).
Proof.
  induction xs as [| x rest IH]; intros H; cbn [collect]; [reflexivity |].
  rewrite (bind_ok _ _ _ _ _ (H x (list_elem_of_here _ _))).
  rewrite (bind_ok _ _ _ [] s); [reflexivity |].
  apply IH. intros y Hy. apply H. now apply list_elem_of_further.
Qed.

(** X8: when no function-valued property of an object carries capture
    metadata, the walk over it returns no block and leaves the whole state
    as it was: nothing is called, cleared or printed. *)
Theorem unannotated_object_untouched this label (s : State) :
  (forall key f, key ∈ getPropertyNames this ->
     get this key = VFunction f -> metadata s !! f = None) ->
  runTargets target_apply this label s = (Ok [], s).
Proof.
  intros H. unfold runTargets. apply collect_nothing. intros key Hkey.
  unfold runKey. destruct (get this key) as [| f] eqn:Eget; [reflexivity |].
  unfold bind, gets. now rewrite (H key f Hkey Eget).
Qed.

(** X11: the logging shim is cleared before every invocation case, so
    when the call settles (resolves or rejects) the block of the case holds
    exactly the statements of that call, whatever the shim held before; a
    rejection prints one error line, and a call without any statement
    prints one warning and yields no block. *)
Theorem case_block_holds_its_statements this label key target q (s : State)
    w' statements outcome :
  target_apply target (oid this) (q_params q) (world s) = (w', statements, outcome) ->
  outcome = Fulfilled \/ (exists e, outcome = Rejected e) ->
  let qlabel := queryLabel label key (q_name q) in
  exists s',
    runCase target_apply this label key target q s =
      (Ok (match statements with
           | [] => []
           | _ => [block qlabel statements]
           end), s') /\
    queries (this_sqlLogger s') = statements /\
    world s' = w' /\
    console s' =
      console s
        ++ match outcome with
           | Rejected e => [(Error, qlabel +:+ " error: " +:+ e)]
           | _ => []
           end
        ++ match statements with
           | [] => [(Warn, "No queries recorded for " +:+ qlabel)]
           | _ => []
           end.
Proof.
  intros E Hout. cbn zeta. unfold runCase, bind, modify, gets, applyCatch.
  cbn [world set_sqlLogger].
  destruct Hout as [-> | [e ->]]; rewrite E;
    cbn [this_sqlLogger print set_sqlLogger set_world note_applied];
    rewrite fold_record; cbn [SqlLogger_clear queries app];
    destruct statements as [| stmt rest]; cbn [length Nat.eqb];
    eexists; (split; [reflexivity |]);
    cbn [console print set_sqlLogger set_world note_applied this_sqlLogger
         queries world app];
    rewrite ?fold_record, ?app_nil_r, <- ?app_assoc; cbn [queries app];
    repeat split.
Qed.

Lemma cases_blocks this label key target cases : forall (s : State) d s',
  collect cases (runCase target_apply this label key target) s = (Ok d, s') ->
  length d <= length cases.
Proof.
  induction cases as [| q rest IH]; intros s d s' H; cbn [collect] in H.
  - injection H as <- _. reflexivity.
  - apply bind_ok_inv in H as (pushed & s1 & H1 & H).
    apply bind_ok_inv in H as (more & s2 & H2 & H).
    injection H as <- _. apply IH in H2.
    apply runCase_blocks in H1 as [[-> _] | [_ ->]];
      rewrite length_app; cbn [length]; lia.
Qed.

(** X13: a method whose capture metadata lists one or more cases is
    called once per case, in the order of the list and with the arguments
    of each case; the walk returns at most one block per case and does not
    change the metadata store. *)
Theorem cases_called_in_order this label key f q qs (s : State) d s' :
  get this key = VFunction f ->
  metadata s !! f = Some (q :: qs) ->
  runKey target_apply this label key s = (Ok d, s') ->
  applied s' =
    applied s ++ map (fun c => mkApplication f (oid this) (q_params c)) (q :: qs) /\
  metadata s' = metadata s /\
  length d <= length (q :: qs).
Proof.
  intros Hget Hmeta H. unfold runKey in H. rewrite Hget in H.
  apply bind_ok_inv in H as (found & s0 & H0 & H).
  unfold gets in H0. injection H0 as <- <-. rewrite Hmeta in H.
  cbn [length Nat.eqb] in H.
  apply bind_ok_inv in H as (cases & s1 & H1 & H).
  injection H1 as <- <-.
  pose proof (cases_blocks _ _ _ _ _ _ _ _ H) as Hlen.
  apply cases_applied in H as [Ea Em]. now repeat split.
Qed.

(** ** Calls, blocks and warnings *)

Lemma warnings_app (a b : list (Channel * string)) :
  warnings (a ++ b) = warnings a + warnings b.
Proof. unfold warnings. now rewrite List.filter_app, length_app. Qed.

Lemma balanced_refl (s : State) : balanced [] s s.
Proof. unfold balanced. cbn [length]. lia. Qed.

Lemma balanced_app d1 d2 (s s1 s2 : State) :
  balanced d1 s s1 -> balanced d2 s1 s2 -> balanced (d1 ++ d2) s s2.
Proof. unfold balanced. rewrite length_app. lia. Qed.

Lemma collect_balanced {A} (body : A -> M (list string)) xs :
  (forall x (s : State) d s', body x s = (Ok d, s') -> balanced d s s') ->
  forall (s : State) d s', collect xs body s = (Ok d, s') -> balanced d s s'.
Proof.
  intros Hbody. induction xs as [| x rest IH]; intros s d s' H; cbn [collect] in H.
  - injection H as <- <-. apply balanced_refl.
  - apply bind_ok_inv in H as (pushed & s1 & H1 & H).
    apply bind_ok_inv in H as (more & s2 & H2 & H).
    injection H as <- <-.
    eapply balanced_app; [eapply Hbody | eapply IH]; eassumption.
Qed.

Lemma runCase_balanced this label key target q (s : State) d s' :
  runCase target_apply this label key target q s = (Ok d, s') -> balanced d s s'.
Proof.
  unfold runCase, bind, modify, gets, applyCatch, ret.
  cbn [world set_sqlLogger].
  destruct (target_apply target (oid this) (q_params q) (world s)) as [[w' stmts] out].
  destruct out;
    repeat match goal with
           | |- context [if ?b then _ else _] => destruct b
           end;
    intros H; try discriminate; injection H as <- <-;
    unfold balanced;
    cbn [applied console print set_sqlLogger set_world note_applied];
    rewrite ?warnings_app, !length_app; cbn; lia.
Qed.

Lemma runKey_balanced this label key (s : State) d s' :
  runKey target_apply this label key s = (Ok d, s') -> balanced d s s'.
Proof.
  unfold runKey. destruct (get this key) as [| target]; intros H.
  - injection H as <- <-. apply balanced_refl.
  - apply bind_ok_inv in H as (found & s0 & H0 & H).
    unfold gets in H0. injection H0 as <- <-.
    destruct (metadata s !! target) as [qs |];
      [| injection H as <- <-; apply balanced_refl].
    apply bind_ok_inv in H as (cases & s1 & H1 & H).
    apply (collect_balanced _ _ (runCase_balanced this label key target)) in H.
    assert (E : applied s1 = applied s /\ console s1 = console s).
    { destruct (Nat.eqb (length qs) 0).
      - apply bind_ok_inv in H1 as ([] & s2 & H2 & H1).
        injection H2 as <-. injection H1 as _ <-. now split.
      - injection H1 as _ <-. now split. }
    destruct E as [Ea Ec]. unfold balanced in *. now rewrite <- Ea, <- Ec.
Qed.

Lemma runTargets_balanced this label (s : State) d s' :
  runTargets target_apply this label s = (Ok d, s') -> balanced d s s'.
Proof.
  unfold runTargets. apply collect_balanced. intros key. apply runKey_balanced.
Qed.

Lemma blockCount_assign_new key line blocks (entries : list (string * list string)) :
  key ∉ map fst entries ->
  blockCount (assign key (line :: blocks) entries) = blockCount entries + length blocks.
Proof.
  unfold blockCount.
  induction entries as [| [k v] rest IH]; cbn [assign map fst]; intros H.
  - cbn. lia.
  - apply not_elem_of_cons in H as [Hne Hrest].
    destruct (String.eqb_spec k key) as [-> | _]; [congruence |].
    cbn [map snd list_sum]. specialize (IH Hrest). simpl in *. lia.
Qed.

Lemma process_balanced R (s s' : State) :
  process target_apply R s = (Ok tt, s') ->
  name R ∉ map fst (this_results s) ->
  length (applied s') + warnings (console s) + blockCount (this_results s)
    = length (applied s) + blockCount (this_results s') + warnings (console s').
Proof.
  intros H Hnew.
  apply process_inv in H as (normal & nested & s1 & s2 & _ & H1 & H2 & ->).
  cbn [applied console this_results set_results].
  rewrite (blockCount_assign_new _ _ _ _ Hnew), length_app.
  apply runTargets_balanced in H1.
  assert (B2 : balanced nested s1 s2).
  { destruct (String.eqb (name R) AccessRepository_name).
    - revert H2. apply collect_balanced. intros key t d t' Hk.
      unfold runNested in Hk. destruct (getOwn (instance R) key); [discriminate |].
      now apply runTargets_balanced in Hk.
    - injection H2 as <- <-. apply balanced_refl. }
  unfold balanced in *. lia.
Qed.

Lemma processAll_balanced repos : forall (s s' : State),
  forEach repos (process target_apply) s = (Ok tt, s') ->
  NoDup (map fst (this_results s) ++ map name repos) ->
  length (applied s') + warnings (console s) + blockCount (this_results s)
    = length (applied s) + blockCount (this_results s') + warnings (console s').
Proof.
  induction repos as [| R rest IH]; intros s s' H Hnd; cbn [forEach] in H.
  - injection H as <-. lia.
  - apply bind_ok_inv in H as ([] & s1 & H1 & H). cbn [map] in Hnd.
    assert (Hnew : name R ∉ map fst (this_results s)).
    { apply NoDup_app in Hnd as (_ & Hdisj & _). intros Hin.
      apply (Hdisj _ Hin). apply list_elem_of_here. }
    pose proof (process_balanced R s s1 H1 Hnew) as B1.
    apply process_results in H1 as (blocks & E1).
    assert (Ekeys : map fst (this_results s1) = map fst (this_results s) ++ [name R]).
    { rewrite E1. now apply assign_keys_new. }
    assert (B2 := IH s1 s' H).
    rewrite Ekeys, <- app_assoc in B2. specialize (B2 Hnd). lia.
Qed.

(** X12: in a run that completes over repositories with distinct names,
    every call is accounted for: the number of calls made equals the
    number of blocks stored in the result mapping plus the number of
    warnings printed. *)
Theorem calls_are_blocks_plus_warnings repositories meta w dir s' :
  NoDup (map name repositories) ->
  run target_apply faults repositories (initial meta w dir) = (Ok tt, s') ->
  length (applied s') = blockCount (this_results s') + warnings (console s').
Proof.
  intros Hnd H.
  apply run_ok_inv in H as (s1 & s2 & s3 & s4 & H1 & H2 & H3 & H4 & H5).
  apply setup_ok in H1. subst s1.
  apply processAll_balanced in H2; [| exact Hnd].
  cbn [applied console this_results set_app set_targetDir initial length] in H2.
  change (warnings []) with 0 in H2. change (blockCount []) with 0 in H2.
  rewrite stats_ok in H4. injection H4 as <-.
  rewrite (keeps_eq applied _ _ _ _ (close_keeps applied (fun _ => eq_refl)) H5).
  rewrite (keeps_eq this_results _ _ _ _ (close_keeps this_results (fun _ => eq_refl)) H5).
  rewrite (keeps_eq console _ _ _ _ (close_keeps console (fun _ => eq_refl)) H5).
  cbn [applied this_results console print].
  rewrite !warnings_app. change (warnings [(Log, _)]) with 0.
  rewrite (keeps_eq applied _ _ _ _ (write_keeps applied (fun _ _ => eq_refl)) H3).
  rewrite (keeps_eq this_results _ _ _ _ (write_keeps this_results (fun _ _ => eq_refl)) H3).
  rewrite (keeps_eq console _ _ _ _ (write_keeps console (fun _ _ => eq_refl)) H3).
  lia.
Qed.

(** ** The files of distinct repositories *)

Lemma written_fresh entries : forall (files : gmap string string) file,
  file ∉ map (fun entry => sqlFile (fst entry)) entries ->
  written entries files !! file = files !! file.
Proof.
  induction entries as [| entry rest IH]; intros files file H;
    unfold written in *; cbn [fold_left map] in *; [reflexivity |].
  apply not_elem_of_cons in H as [Hne Hrest].
  rewrite (IH _ _ Hrest). now apply lookup_insert_ne.
Qed.

Lemma written_own entries : forall (files : gmap string string) k data,
  NoDup (map (fun entry => sqlFile (fst entry)) entries) ->
  (k, data) ∈ entries ->
  written entries files !! sqlFile k = Some (fileContent data).
Proof.
  induction entries as [| entry rest IH]; intros files k data Hnd Hin.
  - inversion Hin.
  - cbn [map] in Hnd. apply NoDup_cons in Hnd as [Hfresh Hnd].
    unfold written in *. cbn [fold_left].
    apply elem_of_cons in Hin as [<- | Hin].
    + cbn [fst snd] in *.
      rewrite (written_fresh rest _ _ Hfresh). apply lookup_insert_eq.
    + now apply IH.
Qed.

Lemma written_size entries : forall (files : gmap string string),
  NoDup (map (fun entry => sqlFile (fst entry)) entries) ->
  (forall entry, entry ∈ entries -> files !! sqlFile (fst entry) = None) ->
  size (written entries files) = size files + length entries.
Proof.
  induction entries as [| entry rest IH]; intros files Hnd Hnone;
    unfold written in *; cbn [fold_left length]; [lia |].
  cbn [map] in Hnd. apply NoDup_cons in Hnd as [Hfresh Hnd].
  rewrite IH; [| exact Hnd |].
  - rewrite map_size_insert_None; [lia |].
    apply Hnone, list_elem_of_here.
  - intros e He. rewrite lookup_insert_ne.
    + apply Hnone. now apply list_elem_of_further.
    + intros E. apply Hfresh. rewrite E.
      apply list_elem_of_fmap. now exists e.
Qed.

(** X2: when the repositories of the list have distinct file names, a
    run that completes leaves exactly as many files as there are
    repositories, the file of each repository holds the sequence stored
    for that repository and no other, and the number in the line
    [Wrote N files] is the number of files in the directory. *)
Theorem every_repository_has_its_own_file repositories meta w dir s' :
  NoDup (map (fun R => sqlFile (name R)) repositories) ->
  run target_apply faults repositories (initial meta w dir) = (Ok tt, s') ->
  exists files,
    targetDir s' = Some files /\
    size files = length repositories /\
    (forall R, R ∈ repositories ->
       exists data,
         property (name R) (this_results s') = Some data /\
         files !! sqlFile (name R) = Some (fileContent data)) /\
    (Log, "Wrote " +:+ Js.ofNumber (size files) +:+ " files") ∈ console s'.
Proof.
  intros Hfiles H.
  assert (Hnames : NoDup (map name repositories)).
  { apply (NoDup_fmap_1 sqlFile). unfold fmap. rewrite List.map_map. exact Hfiles. }
  pose proof (run_summary _ _ _ _ _ H) as (before & Hconsole).
  apply run_ok_files in H as (s2 & H2 & Hres & Hdir).
  destruct (processAll_results _ _ _ H2) as [Hkeys _]; [exact Hnames | constructor |].
  cbn [this_results set_app set_targetDir initial map app] in Hkeys.
  assert (Hentries : NoDup (map (fun entry => sqlFile (fst entry)) (this_results s2))).
  { rewrite <- (List.map_map fst sqlFile), Hkeys, List.map_map. exact Hfiles. }
  assert (Hlen : length (this_results s2) = length repositories).
  { rewrite <- (length_map fst), Hkeys. apply length_map. }
  exists (written (this_results s2) ∅). split; [exact Hdir |].
  assert (Hsize : size (written (this_results s2) ∅) = length repositories).
  { rewrite written_size; [| exact Hentries | intros e _; apply lookup_empty].
    rewrite map_size_empty. lia. }
  split; [exact Hsize |]. split.
  - intros R HR.
    assert (Hk : name R ∈ map fst (this_results s2)).
    { rewrite Hkeys. apply list_elem_of_fmap. now exists R. }
    apply list_elem_of_fmap in Hk as ([k data] & Hk & Hin). cbn [fst] in Hk. subst k.
    exists data. rewrite Hres. split.
    + apply property_NoDup; [| exact Hin]. rewrite Hkeys. exact Hnames.
    + now apply written_own.
  - rewrite Hconsole, Hsize, Hres, Hlen.
    apply elem_of_app. right. apply list_elem_of_here.
Qed.

(** ** The directory when something fails *)

(** X3: unless the removal of the directory itself fails, the outcome of
    the program does not depend on what the target directory held before:
    exit status, console, results and files are the same from any earlier
    content of the directory, or from none. *)
Theorem clean_slate repositories meta w dir dir' :
  rm_error faults = None ->
  main target_apply faults repositories (initial meta w dir)
    = main target_apply faults repositories (initial meta w dir').
Proof.
  intros Hrm. unfold main, run, try_finally, phases, setup, bind, fail_after.
  rewrite Hrm. reflexivity.
Qed.

(** X4: when setup fails, no method is called, the teardown has no
    context to close and the program exits with status 1 after printing
    the error; if the removal of the directory failed, the directory holds
    what the removal had not yet removed, a part of its earlier entries
    with their content; it is gone if its creation failed, and is there
    but empty if the creation of the application context failed. *)
Theorem setup_failure_outcomes repositories (s : State) :
  this_app s = None ->
  let report e t := (1, print Log "Something went wrong" (print Error e t)) in
  (forall e, rm_error faults = Some e ->
     main target_apply faults repositories s
       = report e (set_targetDir (rm_remains faults <$> targetDir s) s) /\
     forall files, targetDir s = Some files -> rm_remains faults files ⊆ files) /\
  (forall e, rm_error faults = None -> mkdir_error faults = Some e ->
     main target_apply faults repositories s = report e (set_targetDir None s)) /\
  (forall e, rm_error faults = None -> mkdir_error faults = None ->
     init_error faults = Some e ->
     main target_apply faults repositories s
       = report e (set_targetDir (Some ∅) (set_targetDir None s))).
Proof.
  intros Happ. cbn zeta.
  assert (Hrun : forall e t,
            setup faults s = (Throw e, t) -> this_app t = None ->
            main target_apply faults repositories s
              = (1, print Log "Something went wrong" (print Error e t))).
  { intros e t Hsetup Ht. unfold main, run, try_finally, phases.
    rewrite (bind_throw _ _ _ _ _ Hsetup), (close_nothing t Ht). reflexivity. }
  split; [| split].
  - intros e Hrm. split.
    + apply Hrun; [| exact Happ].
      unfold setup, bind, fail_after. now rewrite Hrm.
    + intros files _. apply map_filter_subseteq.
  - intros e Hrm Hmk. apply Hrun; [| exact Happ].
    unfold setup, bind, fail_after, fail_if, throw, modify, ret. now rewrite Hrm, Hmk.
  - intros e Hrm Hmk Hinit. apply Hrun; [| exact Happ].
    unfold setup, bind, fail_after, fail_if, throw, modify, ret, gets. rewrite Hrm, Hmk.
    cbn [targetDir set_targetDir]. now rewrite Hinit.
Qed.

(** X5: when a repository cannot be processed, nothing is written: the
    directory that setup has emptied stays empty, so the files of an
    earlier run are lost, and the program exits with status 1. *)
Theorem processing_failure_leaves_empty_directory repositories (s : State) s1 e s2 :
  setup faults s = (Ok tt, s1) ->
  forEach repositories (process target_apply) s1 = (Throw e, s2) ->
  fst (main target_apply faults repositories s) = 1 /\
  targetDir (snd (main target_apply faults repositories s)) = Some ∅.
Proof.
  intros H1 H2.
  assert (E : phases target_apply faults repositories s = (Throw e, s2)).
  { unfold phases. rewrite (bind_ok _ _ _ _ _ H1). now apply bind_throw. }
  assert (Hdir : targetDir s2 = Some ∅).
  { rewrite (keeps_eq targetDir _ _ _ _
               (processAll_keeps repositories targetDir Untargeted_targetDir
                  (fun _ _ => eq_refl)) H2).
    now rewrite (setup_ok _ _ H1). }
  unfold main, run, try_finally. rewrite E.
  destruct (close faults s2) as [[[] | e'] s3] eqn:Ec; cbn [fst snd targetDir print];
    (split; [reflexivity |]);
    now rewrite (keeps_eq targetDir _ _ _ _ (close_keeps targetDir (fun _ => eq_refl)) Ec).
Qed.

Lemma writeFile_ok (s : State) file content files :
  writeFile_error faults file = None ->
  targetDir s = Some files ->
  writeFile faults file content s
    = (Ok tt, set_targetDir (Some (<[file := content]> files)) s).
Proof.
  intros Hok Hdir. unfold writeFile, bind, fail_after, gets, modify, ret.
  now rewrite Hok, Hdir.
Qed.

Lemma forEach_writeFile_stops pre entry post err : forall (s : State) files,
  (forall e, e ∈ pre -> writeFile_error faults (sqlFile (fst e)) = None) ->
  writeFile_error faults (sqlFile (fst entry)) = Some err ->
  targetDir s = Some files ->
  exists s',
    forEach (pre ++ entry :: post)
      (fun e => writeFile faults (sqlFile (fst e)) (fileContent (snd e))) s
      = (Throw err, s') /\
    targetDir s' =
      Some (match writeFile_partial faults (sqlFile (fst entry)) with
            | Some n =>
                <[sqlFile (fst entry) :=
                    String.substring 0 n (fileContent (snd entry))]>
                  (written pre files)
            | None => written pre files
            end) /\
    this_results s' = this_results s.
Proof.
  induction pre as [| x pre IH]; intros s files Hpre Hentry Hdir;
    cbn [app forEach].
  - exists (writeFile_remains faults (sqlFile (fst entry)) (fileContent (snd entry)) s).
    split; [| split].
    + apply bind_throw. unfold writeFile, bind, fail_after. now rewrite Hentry.
    + unfold writeFile_remains. rewrite Hdir.
      now destruct (writeFile_partial faults (sqlFile (fst entry))).
    + unfold writeFile_remains. rewrite Hdir.
      now destruct (writeFile_partial faults (sqlFile (fst entry))).
  - rewrite (bind_ok _ _ _ _ _
               (writeFile_ok s _ (fileContent (snd x)) files
                  (Hpre x (list_elem_of_here _ _)) Hdir)).
    destruct (IH (set_targetDir (Some (<[sqlFile (fst x) := fileContent (snd x)]> files)) s)
                 (<[sqlFile (fst x) := fileContent (snd x)]> files))
      as (s' & Hrun & Hfiles & Hres).
    + intros e He. apply Hpre. now apply list_elem_of_further.
    + exact Hentry.
    + reflexivity.
    + exists s'. split; [exact Hrun |]. split; [exact Hfiles | exact Hres].
Qed.

(** X6: [write] stops at the first file that cannot be written and cleans
    nothing up: the files of the entries before it are in the directory;
    the file of the failing entry is as it was if it could not be opened,
    and otherwise holds the characters written before the failure (none,
    for a file that was only created or truncated); the files of the later
    entries are not written. *)
Theorem write_stops_at_first_failure (s : State) pre entry post err files :
  this_results s = pre ++ entry :: post ->
  (forall e, e ∈ pre -> writeFile_error faults (sqlFile (fst e)) = None) ->
  writeFile_error faults (sqlFile (fst entry)) = Some err ->
  targetDir s = Some files ->
  exists s',
    write faults s = (Throw err, s') /\
    targetDir s' =
      Some (match writeFile_partial faults (sqlFile (fst entry)) with
            | Some n =>
                <[sqlFile (fst entry) :=
                    String.substring 0 n (fileContent (snd entry))]>
                  (written pre files)
            | None => written pre files
            end).
Proof.
  intros Hres Hpre Hentry Hdir.
  destruct (forEach_writeFile_stops pre entry post err s files Hpre Hentry Hdir)
    as (s' & Hrun & Hfiles & _).
  exists s'. split; [| exact Hfiles].
  unfold write, bind, gets. now rewrite Hres.
Qed.

(** X7: when closing the application context fails, the error of the
    teardown is the one the program reports, whatever the phases did
    before, also when one of them had thrown an error of its own. *)
Theorem teardown_error_is_reported repositories (s : State) s1 e :
  close_error faults = Some e ->
  setup faults s = (Ok tt, s1) ->
  fst (run target_apply faults repositories s) = Throw e /\
  exists before,
    console (snd (main target_apply faults repositories s))
      = before ++ [(Error, e); (Log, "Something went wrong")].
Proof.
  intros Hclose H1.
  assert (Happ : is_Some (this_app (snd (phases target_apply faults repositories s)))).
  { rewrite (phases_after_setup repositories this_app s s1 Untargeted_this_app
               (fun _ _ => eq_refl) (fun _ _ => eq_refl) H1).
    rewrite (setup_ok _ _ H1). now eexists. }
  unfold main, run, try_finally.
  destruct (phases target_apply faults repositories s) as [r s4]. cbn [snd] in Happ.
  destruct Happ as [a Ha].
  unfold close, bind, gets, modify, fail_if, throw. rewrite Ha, Hclose.
  cbn [fst snd console print]. split; [reflexivity |].
  exists (console (note_closed s4)). now rewrite <- app_assoc.
Qed.

Lemma process_throw_results R (s : State) e s' :
  process target_apply R s = (Throw e, s') -> this_results s' = this_results s.
Proof.
  unfold process. intros H.
  apply bind_inv in H as [(a & s0 & H0 & H) | (e0 & H0 & _)]; [| discriminate].
  unfold gets in H0. injection H0 as <- <-.
  destruct (this_app s); [| now injection H as _ <-].
  assert (Kt : forall this label,
            keeps (@this_results World Param) (runTargets target_apply this label)).
  { intros. apply runTargets_keeps, Untargeted_this_results. }
  apply bind_inv in H as [(normal & s1 & H1 & H) | (e1 & H1 & _)];
    [| exact (keeps_eq _ _ _ _ _ (Kt _ _) H1)].
  apply (keeps_eq _ _ _ _ _ (Kt _ _)) in H1. rewrite <- H1.
  apply bind_inv in H as [(nested & s2 & H2 & H) | (e2 & H2 & _)]; [discriminate |].
  destruct (String.eqb (name R) AccessRepository_name); [| discriminate].
  revert H2. apply (keeps_eq this_results). unfold keeps. ev_collect.
  intros key. apply runNested_keeps, Untargeted_this_results.
Qed.

(** X15: processing fails at one repository and stops there: the
    repositories before it have been processed completely, the failing
    repository leaves no entry and no change in the result mapping, and
    the repositories after it are not reached. *)
Theorem processing_stops_at_failing_repository repositories :
  forall (s : State) e s',
    forEach repositories (process target_apply) s = (Throw e, s') ->
    exists done R rest s1,
      repositories = done ++ R :: rest /\
      forEach done (process target_apply) s = (Ok tt, s1) /\
      process target_apply R s1 = (Throw e, s') /\
      this_results s' = this_results s1.
Proof.
  induction repositories as [| R rest IH]; intros s e s' H; cbn [forEach] in H.
  - discriminate.
  - apply bind_inv in H as [([] & s1 & H1 & H) | (e1 & H1 & He)].
    + destruct (IH s1 e s' H) as (done & R' & rest' & s2 & -> & Hdone & HR & Hres).
      exists (R :: done), R', rest', s2. split; [reflexivity |].
      split; [| now split]. cbn [forEach]. now rewrite (bind_ok _ _ _ _ _ H1).
    + injection He as <-. exists [], R, rest, s. split; [reflexivity |].
      split; [reflexivity |]. split; [exact H1 |].
      exact (process_throw_results R s e s' H1).
Qed.

(** ** The cases a walk invokes and the blocks it returns, in order *)

Lemma block_lines qlabel statements :
  block qlabel statements
    = "-- " +:+ qlabel +:+ Js.flatten (map (String.append eol) statements).
Proof. unfold block. rewrite join_cons. apply append_assoc. Qed.

Lemma defaulted_refl (m : gmap FnId (list (@GenerateSqlQueries Param))) :
  defaulted m m.
Proof. intros f. now left. Qed.

Lemma defaulted_trans (m1 m2 m3 : gmap FnId (list (@GenerateSqlQueries Param))) :
  defaulted m1 m2 -> defaulted m2 m3 -> defaulted m1 m3.
Proof.
  intros D12 D23 f. destruct (D12 f) as [E | [E E']], (D23 f) as [G | [G G']].
  - left. congruence.
  - right. split; congruence.
  - right. split; congruence.
  - rewrite E' in G. discriminate.
Qed.

Lemma casesOf_defaulted (m m' : gmap FnId (list (@GenerateSqlQueries Param))) f :
  defaulted m m' -> casesOf m' f = casesOf m f.
Proof.
  intros D. unfold casesOf. destruct (D f) as [E | [E E']].
  - now rewrite E.
  - now rewrite E, E'.
Qed.

Lemma plannedKey_defaulted (m m' : gmap FnId (list (@GenerateSqlQueries Param)))
    this label key :
  defaulted m m' -> plannedKey m' this label key = plannedKey m this label key.
Proof.
  intros D. unfold plannedKey. destruct (get this key); [reflexivity |].
  now rewrite (casesOf_defaulted m m' _ D).
Qed.

Lemma planned_defaulted (m m' : gmap FnId (list (@GenerateSqlQueries Param)))
    this label :
  defaulted m m' -> planned m' this label = planned m this label.
Proof.
  intros D. unfold planned. apply List.flat_map_ext.
  intros key. now apply plannedKey_defaulted.
Qed.

Lemma plannedSub_defaulted (m m' : gmap FnId (list (@GenerateSqlQueries Param)))
    inst repoName sub :
  defaulted m m' -> plannedSub m' inst repoName sub = plannedSub m inst repoName sub.
Proof.
  intros D. unfold plannedSub. destruct (getOwn inst sub); [reflexivity |].
  now apply planned_defaulted.
Qed.

Lemma plannedFor_defaulted (m m' : gmap FnId (list (@GenerateSqlQueries Param))) R :
  defaulted m m' -> plannedFor m' R = plannedFor m R.
Proof.
  intros D. unfold plannedFor. rewrite (planned_defaulted m m' _ _ D). f_equal.
  destruct (String.eqb (name R) AccessRepository_name); [| reflexivity].
  apply List.flat_map_ext. intros sub. now apply plannedSub_defaulted.
Qed.

Lemma captured_nil (s : State) : captured target_apply [] [] s s.
Proof.
  exists []. cbn [map flat_map]. rewrite app_nil_r. now repeat split.
Qed.

Lemma captured_app plan1 plan2 d1 d2 (s s1 s2 : State) :
  captured target_apply plan1 d1 s s1 ->
  captured target_apply plan2 d2 s1 s2 ->
  captured target_apply (plan1 ++ plan2) (d1 ++ d2) s s2.
Proof.
  intros (log1 & P1 & I1 & D1 & A1) (log2 & P2 & I2 & D2 & A2).
  exists (log1 ++ log2). split; [| split; [| split]].
  - now rewrite List.map_app, P1, P2.
  - apply Forall_app. now split.
  - now rewrite List.flat_map_app, D1, D2.
  - now rewrite A2, A1, List.map_app, app_assoc.
Qed.

Lemma captured_applied plan d (s0 s s' : State) :
  applied s0 = applied s ->
  captured target_apply plan d s s' -> captured target_apply plan d s0 s'.
Proof.
  intros E (log & P & I & D & A). exists log. now rewrite E.
Qed.

Lemma runCase_captured this label key target q (s : State) d s' :
  runCase target_apply this label key target q s = (Ok d, s') ->
  captured target_apply
    [mkPlanned (label +:+ "." +:+ key +:+ caseSuffix (q_name q))
       target (oid this) (q_params q)] d s s' /\
  metadata s' = metadata s.
Proof.
  unfold runCase, bind, modify, gets, applyCatch, ret.
  cbn [world set_sqlLogger].
  destruct (target_apply target (oid this) (q_params q) (world s))
    as [[w' stmts] out] eqn:E.
  assert (Hlog : forall (t : State),
            applied t = applied s ++ [mkApplication target (oid this) (q_params q)] ->
            out = Fulfilled \/ (exists err, out = Rejected err) ->
            captured target_apply
              [mkPlanned (label +:+ "." +:+ key +:+ caseSuffix (q_name q))
                 target (oid this) (q_params q)]
              (match stmts with
               | [] => []
               | _ => [block (queryLabel label key (q_name q)) stmts]
               end) s t).
  { intros t Ht Hout.
    exists [(mkPlanned (label +:+ "." +:+ key +:+ caseSuffix (q_name q))
               target (oid this) (q_params q), stmts)].
    split; [reflexivity |]. split; [| split; [| exact Ht]].
    - constructor; [| constructor]. exists (world s), w', out. now split.
    - cbn [flat_map blockOf fst snd p_label]. rewrite app_nil_r.
      destruct stmts; [reflexivity |].
      now rewrite block_lines, queryLabel_parts. }
  destruct out;
    cbn [this_sqlLogger print set_sqlLogger set_world note_applied];
    rewrite ?fold_record; cbn [SqlLogger_clear queries app];
    destruct stmts as [| stmt rest]; cbn [length Nat.eqb];
    intros H; try discriminate; injection H as <- <-;
    (split; [| reflexivity]);
    apply Hlog; try reflexivity; eauto.
Qed.

Lemma cases_captured this label key target cases : forall (s : State) d s',
  collect cases (runCase target_apply this label key target) s = (Ok d, s') ->
  captured target_apply
    (map (fun q => mkPlanned (label +:+ "." +:+ key +:+ caseSuffix (q_name q))
                     target (oid this) (q_params q)) cases) d s s' /\
  metadata s' = metadata s.
Proof.
  induction cases as [| q rest IH]; intros s d s' H; cbn [collect] in H.
  - injection H as <- <-. split; [apply captured_nil | reflexivity].
  - apply bind_ok_inv in H as (pushed & s1 & H1 & H).
    apply bind_ok_inv in H as (more & s2 & H2 & H).
    injection H as <- <-.
    apply runCase_captured in H1 as [C1 M1]. apply IH in H2 as [C2 M2].
    split; [| congruence].
    exact (captured_app [_] _ _ _ _ _ _ C1 C2).
Qed.

Lemma runKey_captured this label key (s : State) d s' :
  runKey target_apply this label key s = (Ok d, s') ->
  captured target_apply (plannedKey (metadata s) this label key) d s s' /\
  defaulted (metadata s) (metadata s').
Proof.
  unfold runKey, plannedKey. destruct (get this key) as [| f]; intros H.
  - injection H as <- <-. split; [apply captured_nil | apply defaulted_refl].
  - apply bind_ok_inv in H as (found & s0 & H0 & H).
    unfold gets in H0. injection H0 as <- <-.
    unfold casesOf. destruct (metadata s !! f) as [qs |] eqn:Emeta.
    2:{ injection H as <- <-. split; [apply captured_nil | apply defaulted_refl]. }
    destruct qs as [| q qs]; cbn [length Nat.eqb app] in H.
    + apply bind_ok_inv in H as (cases & s1 & H1 & H).
      unfold bind, modify, ret in H1. injection H1 as <- <-.
      apply cases_captured in H as [C M]. split.
      * now apply (captured_applied _ _ s) in C.
      * intros g. rewrite M. cbn [metadata set_metadata].
        destruct (decide (f = g)) as [<- | Hne].
        -- right. now rewrite lookup_insert_eq.
        -- left. now rewrite lookup_insert_ne.
    + apply bind_ok_inv in H as (cases & s1 & H1 & H).
      injection H1 as <- <-.
      apply cases_captured in H as [C M]. split; [exact C |].
      rewrite M. apply defaulted_refl.
Qed.

Lemma keys_captured this label names : forall (s : State) d s',
  collect names (runKey target_apply this label) s = (Ok d, s') ->
  captured target_apply
    (flat_map (plannedKey (metadata s) this label) names) d s s' /\
  defaulted (metadata s) (metadata s').
Proof.
  induction names as [| key rest IH]; intros s d s' H; cbn [collect] in H.
  - injection H as <- <-. split; [apply captured_nil | apply defaulted_refl].
  - apply bind_ok_inv in H as (pushed & s1 & H1 & H).
    apply bind_ok_inv in H as (more & s2 & H2 & H).
    injection H as <- <-.
    apply runKey_captured in H1 as [C1 D1]. apply IH in H2 as [C2 D2].
    split; [| exact (defaulted_trans _ _ _ D1 D2)].
    cbn [flat_map]. apply (captured_app _ _ _ _ s s1 s2 C1).
    rewrite (List.flat_map_ext _ (plannedKey (metadata s1) this label)); [exact C2 |].
    intros key'. symmetry. now apply plannedKey_defaulted.
Qed.

Lemma runTargets_captured this label (s : State) d s' :
  runTargets target_apply this label s = (Ok d, s') ->
  captured target_apply (planned (metadata s) this label) d s s' /\
  defaulted (metadata s) (metadata s').
Proof. apply keys_captured. Qed.

Lemma nested_captured inst repoName subs : forall (s : State) d s',
  collect subs (runNested target_apply inst repoName) s = (Ok d, s') ->
  captured target_apply
    (flat_map (plannedSub (metadata s) inst repoName) subs) d s s' /\
  defaulted (metadata s) (metadata s').
Proof.
  induction subs as [| sub rest IH]; intros s d s' H; cbn [collect] in H.
  - injection H as <- <-. split; [apply captured_nil | apply defaulted_refl].
  - apply bind_ok_inv in H as (pushed & s1 & H1 & H).
    apply bind_ok_inv in H as (more & s2 & H2 & H).
    injection H as <- <-.
    assert (C1 : captured target_apply (plannedSub (metadata s) inst repoName sub)
                   pushed s s1 /\ defaulted (metadata s) (metadata s1)).
    { unfold runNested, plannedSub in *.
      destruct (getOwn inst sub); [discriminate |].
      now apply runTargets_captured. }
    destruct C1 as [C1 D1]. apply IH in H2 as [C2 D2].
    split; [| exact (defaulted_trans _ _ _ D1 D2)].
    cbn [flat_map]. apply (captured_app _ _ _ _ s s1 s2 C1).
    rewrite (List.flat_map_ext _ (plannedSub (metadata s1) inst repoName));
      [exact C2 |].
    intros sub'. symmetry. now apply plannedSub_defaulted.
Qed.

(** What processing one repository calls and stores. *)
Lemma process_captured R (s s' : State) :
  process target_apply R s = (Ok tt, s') ->
  exists normal nested : list (Planned * list string),
    map fst normal = planned (metadata s) (self (instance R)) (name R) /\
    map fst nested =
      (if String.eqb (name R) AccessRepository_name
       then flat_map (plannedSub (metadata s) (instance R) (name R)) (keys (instance R))
       else []) /\
    Forall (issued target_apply) (normal ++ nested) /\
    applied s' = applied s ++ map callOf (map fst (normal ++ nested)) /\
    this_results s' =
      assign (name R) (provenance :: flat_map blockOf (normal ++ nested))
        (this_results s) /\
    defaulted (metadata s) (metadata s').
Proof.
  intros H. apply process_inv in H as (d1 & d2 & s1 & s2 & _ & H1 & H2 & ->).
  apply runTargets_captured in H1 as [(normal & P1 & I1 & -> & A1) D1].
  assert (C2 : captured target_apply
                 (if String.eqb (name R) AccessRepository_name
                  then flat_map (plannedSub (metadata s) (instance R) (name R))
                         (keys (instance R))
                  else []) d2 s1 s2 /\ defaulted (metadata s1) (metadata s2)).
  { destruct (String.eqb (name R) AccessRepository_name).
    - apply nested_captured in H2 as [C2 D2]. split; [| exact D2].
      rewrite (List.flat_map_ext _ (plannedSub (metadata s1) (instance R) (name R)));
        [exact C2 |].
      intros sub. symmetry. now apply plannedSub_defaulted.
    - injection H2 as <- <-. split; [apply captured_nil | apply defaulted_refl]. }
  destruct C2 as [(nested & P2 & I2 & -> & A2) D2].
  exists normal, nested. cbn [applied metadata this_results set_results].
  split; [exact P1 |]. split; [exact P2 |]. split; [now apply Forall_app |].
  split; [| split].
  - now rewrite A2, A1, List.map_app, List.map_app, P1, P2, app_assoc.
  - now rewrite List.flat_map_app.
  - exact (defaulted_trans _ _ _ D1 D2).
Qed.

Lemma process_processed R (s s' : State) :
  process target_apply R s = (Ok tt, s') ->
  exists data,
    processed target_apply (metadata s) R data /\
    this_results s' = assign (name R) data (this_results s) /\
    applied s' = applied s ++ map callOf (plannedFor (metadata s) R) /\
    defaulted (metadata s) (metadata s').
Proof.
  intros H. apply process_captured in H as (normal & nested & P1 & P2 & I & A & E & D).
  exists (provenance :: flat_map blockOf (normal ++ nested)).
  assert (P : map fst (normal ++ nested) = plannedFor (metadata s) R).
  { unfold plannedFor. now rewrite List.map_app, P1, P2. }
  split; [| split; [exact E | split; [now rewrite <- P | exact D]]].
  exists (normal ++ nested). now repeat split.
Qed.

Lemma assign_elem_of {V} key (value : V) obj e :
  e ∈ assign key value obj -> e = (key, value) \/ e ∈ obj.
Proof.
  induction obj as [| [k v] rest IH]; cbn [assign]; intros H.
  - apply list_elem_of_singleton in H. now left.
  - destruct (String.eqb_spec k key) as [-> | _].
    + apply elem_of_cons in H as [-> | H]; [now left |].
      right. now apply list_elem_of_further.
    + apply elem_of_cons in H as [-> | H]; [right; apply list_elem_of_here |].
      destruct (IH H) as [-> | Hin]; [now left |].
      right. now apply list_elem_of_further.
Qed.

Lemma processed_defaulted (m m' : gmap FnId (list (@GenerateSqlQueries Param)))
    R data :
  defaulted m m' ->
  processed target_apply m' R data -> processed target_apply m R data.
Proof.
  intros D (log & P & I & E). exists log.
  now rewrite <- (plannedFor_defaulted m m' R D).
Qed.

(** What the processing loop calls, in order, and where every entry of
    the result mapping comes from. *)
Lemma processAll_captured repos : forall (s s' : State),
  forEach repos (process target_apply) s = (Ok tt, s') ->
  defaulted (metadata s) (metadata s') /\
  applied s' =
    applied s ++ flat_map (fun R => map callOf (plannedFor (metadata s) R)) repos /\
  forall k data,
    (k, data) ∈ this_results s' ->
    (k, data) ∈ this_results s \/
    exists R, R ∈ repos /\ k = name R /\ processed target_apply (metadata s) R data.
Proof.
  induction repos as [| R rest IH]; intros s s' H; cbn [forEach] in H.
  - injection H as <-. split; [apply defaulted_refl |]. cbn [flat_map].
    rewrite app_nil_r. split; [reflexivity |]. intros k data Hin. now left.
  - apply bind_ok_inv in H as ([] & s1 & H1 & H).
    apply process_processed in H1 as (dataR & PR & ER & AR & DR).
    destruct (IH s1 s' H) as (D & A & Hres).
    split; [exact (defaulted_trans _ _ _ DR D) |]. split.
    + rewrite A, AR, <- app_assoc. cbn [flat_map]. do 2 f_equal.
      apply List.flat_map_ext. intros R'. now rewrite (plannedFor_defaulted _ _ R' DR).
    + intros k data Hin. destruct (Hres k data Hin) as [Hold | (R' & HR' & -> & P')].
      * rewrite ER in Hold. apply assign_elem_of in Hold as [[= -> ->] | Hold].
        -- right. exists R. split; [apply list_elem_of_here | now split].
        -- now left.
      * right. exists R'. split; [now apply list_elem_of_further |].
        split; [reflexivity |]. exact (processed_defaulted _ _ _ _ DR P').
Qed.

(** The calls of a run that completes, in order, and the content of
    every file. *)
Lemma run_captured repos meta w dir s' :
  run target_apply faults repos (initial meta w dir) = (Ok tt, s') ->
  exists files,
    targetDir s' = Some files /\
    applied s' = flat_map (fun R => map callOf (plannedFor meta R)) repos /\
    forall file content,
      files !! file = Some content ->
      exists R log,
        R ∈ repos /\ file = sqlFile (name R) /\
        map fst log = plannedFor meta R /\
        Forall (issued target_apply) log /\
        content =
          provenance
            +:+ Js.flatten (map (String.append (eol +:+ eol)) (flat_map blockOf log))
            +:+ eol.
Proof.
  intros H.
  pose proof (run_ok_files _ _ _ H) as (s2' & H2' & Hres & Hdir).
  apply run_ok_inv in H as (s1 & s2 & s3 & s4 & H1 & H2 & H3 & H4 & H5).
  apply setup_ok in H1. subst s1.
  rewrite H2 in H2'. injection H2' as <-.
  destruct (processAll_captured _ _ _ H2) as (_ & A & Hentries).
  cbn [applied metadata this_results set_app set_targetDir initial app] in A, Hentries.
  exists (written (this_results s2) ∅). split; [exact Hdir |]. split.
  - rewrite stats_ok in H4. injection H4 as <-.
    rewrite (keeps_eq applied _ _ _ _ (close_keeps applied (fun _ => eq_refl)) H5).
    cbn [applied print].
    now rewrite (keeps_eq applied _ _ _ _ (write_keeps applied (fun _ _ => eq_refl)) H3).
  - intros file content Hfile.
    apply written_lookup in Hfile as [Hfile | ([k data] & Hin & -> & ->)];
      [now rewrite lookup_empty in Hfile |].
    destruct (Hentries k data Hin) as [Hnil | (R & HR & -> & log & P & I & ->)];
      [inversion Hnil |].
    exists R, log. cbn [fst snd]. repeat split; try assumption.
    apply fileContent_layout.
Qed.

Lemma caseSuffix_cases (nm : option string) :
  caseSuffix nm =
    match nm with
    | Some (String c n) => " (" +:+ String c n +:+ ")"
    | _ => ""
    end.
Proof. now destruct nm as [[| c n] |]. Qed.

(** The cases of a walk, spelled out. *)
Lemma elem_of_planned (meta : gmap FnId (list (@GenerateSqlQueries Param)))
    this label p :
  p ∈ planned meta this label <->
  exists key f q,
    key ∈ getPropertyNames this /\ get this key = VFunction f /\
    q ∈ casesOf meta f /\
    p = mkPlanned
          (label +:+ "." +:+ key
             +:+ match q_name q with
                 | Some (String c n) => " (" +:+ String c n +:+ ")"
                 | _ => ""
                 end)
          f (oid this) (q_params q).
Proof.
  unfold planned. rewrite list_elem_of_In, List.in_flat_map. split.
  - intros (key & Hkey & Hp). unfold plannedKey in Hp.
    destruct (get this key) as [| f] eqn:Eget; [inversion Hp |].
    apply List.in_map_iff in Hp as (q & <- & Hq).
    exists key, f, q. rewrite <- caseSuffix_cases.
    now rewrite !list_elem_of_In.
  - intros (key & f & q & Hkey & Hget & Hq & ->).
    exists key. rewrite <- list_elem_of_In. split; [exact Hkey |].
    unfold plannedKey. rewrite Hget. apply List.in_map_iff.
    exists q. rewrite <- caseSuffix_cases, <- list_elem_of_In. now split.
Qed.

End Facts.

(** ** The properties on concrete runs *)

Section Examples.

Import Scenario.

Lemma targetList_names : map name targetList = repository_names.
Proof. reflexivity. Qed.

(** C1, as stated, fails on the target list: the run completes,
    [AlbumRepository] has produced no block, and its file is in the output
    directory all the same, holding the provenance line alone. *)
Lemma file_without_blocks :
  let out := run target_apply noFaults targetList start in
  fst out = Ok tt /\
  property "AlbumRepository" (this_results (snd out)) = Some [provenance] /\
  (targetDir (snd out) ≫= fun files => files !! "album.repository.sql")
    = Some (provenance +:+ Js.newline).
Proof. vm_compute. repeat split. Qed.

Lemma files_after_run_witness :
  exists files,
    targetDir (snd (run target_apply noFaults targetList start)) = Some files /\
    forall file,
      is_Some (files !! file) <->
      exists R, R ∈ targetList /\ file = sqlFile (name R).
Proof.
  apply (files_after_run target_apply noFaults targetList store tt None).
  vm_compute. reflexivity.
Defined.

(** C3: on the end-to-end scenario one block is captured and one file is
    written, and the summary reports two "queries": the count includes the
    provenance line of the file. *)
Theorem summary_counts_provenance_lines :
  let out := main target_apply noFaults [RepoA] start in
  fst out = 0 /\
  this_results (snd out)
    = [("RepoA", [provenance;
                  block "RepoA.findAll" ["SELECT * FROM a"]])] /\
  blockCount (this_results (snd out)) = 1 /\
  console (snd out)
    = [(Log, "Wrote 1 files"); (Log, "Generated 2 queries"); (Log, "Done")].
Proof. vm_compute. repeat split. Qed.

(** C4: a method that throws before it returns a promise is not caught by
    [.catch]: the error leaves [runTargets], the remaining methods and
    repositories are never reached, no file is written and the process
    exits with status 1. *)
Theorem synchronous_throw_aborts_run :
  let out := main target_apply noFaults [RepoC; RepoA] start in
  fst out = 1 /\
  applied (snd out) = [mkApplication 4 12 []] /\
  this_results (snd out) = [] /\
  targetDir (snd out) = Some ∅ /\
  console (snd out)
    = [(Error, "Error: thrown by the call"); (Log, "Something went wrong")].
Proof. vm_compute. repeat split. Qed.

(** The sibling path: rejected promises are printed and the run goes on;
    the case that rejected after its statement keeps its block, the case
    that rejected before any statement has none. *)
Example rejections_do_not_abort_run :
  let out := main target_apply noFaults [RepoB] start in
  fst out = 0 /\
  this_results (snd out)
    = [("RepoB", [provenance;
                  block "RepoB.update" ["UPDATE b SET x = 1"];
                  block "RepoB.findAll" ["SELECT * FROM a"]])] /\
  console (snd out)
    = [(Error, "RepoB.update error: Error: after the statement");
       (Error, "RepoB.remove error: Error: before any statement");
       (Warn, "No queries recorded for RepoB.remove");
       (Log, "Wrote 1 files"); (Log, "Generated 3 queries"); (Log, "Done")].
Proof. vm_compute. repeat split. Qed.

Lemma teardown_and_exit_status_witness :
  appClosed (snd (run target_apply readOnly [RepoA] start)) = 1 /\
  fst (main target_apply readOnly [RepoA] start) = 1.
Proof.
  pose proof (teardown_and_exit_status target_apply readOnly [RepoA] start) as H.
  cbn zeta in H. destruct H as (_ & _ & H).
  destruct (H (snd (setup readOnly start)) ltac:(vm_compute; reflexivity))
    as (Hclosed & _ & Hwrite).
  split; [exact Hclosed |].
  destruct (Hwrite (snd (forEach [RepoA] (process target_apply)
                           (snd (setup readOnly start))))
              ltac:(vm_compute; reflexivity)) as [Hthrow _].
  exact (proj2 (Hthrow "Error: EACCES: permission denied"
                  (snd (write readOnly
                          (snd (forEach [RepoA] (process target_apply)
                                  (snd (setup readOnly start))))))
                  ltac:(vm_compute; reflexivity))).
Defined.

Lemma empty_metadata_called_once_witness :
  exists calls,
    applied (snd (runTargets target_apply (self (instance RepoA)) "RepoA" ready))
      = applied ready ++ calls /\
    applicationsOf 1 calls
      = replicate (visits 1 (self (instance RepoA))) (mkApplication 1 10 []).
Proof.
  apply (proj2 (empty_metadata_called_once target_apply (self (instance RepoA)) "RepoA" 1)
           ready [block "RepoA.findAll" ["SELECT * FROM a"]]).
  - vm_compute. reflexivity.
  - vm_compute. reflexivity.
Defined.

Lemma results_after_processing_witness :
  map fst (this_results (snd (forEach targetList (process target_apply) ready)))
    = repository_names /\
  Forall (fun e => exists blocks, snd e = provenance :: blocks /\ snd e <> [])
    (this_results (snd (forEach targetList (process target_apply) ready))).
Proof.
  apply (results_after_processing target_apply targetList ready).
  - reflexivity.
  - reflexivity.
  - vm_compute. reflexivity.
Defined.

(** The labels of the composite repository on a concrete run: two parts
    for its own method, three parts for the methods of the sub-object, the
    name of the case in parentheses. *)
Example access_labels_run :
  property "AccessRepository"
    (this_results (snd (process target_apply Access ready)))
  = Some [provenance;
          block "AccessRepository.findAll" ["SELECT * FROM a"];
          block "AccessRepository.album.checkOwnerAccess" ["SELECT * FROM album"];
          block "AccessRepository.album.checkSharedAccess (by id)"
            ["SELECT * FROM shared"; "SELECT * FROM partner"]].
Proof. vm_compute. reflexivity. Qed.

(** *** Further properties on concrete runs *)

Lemma every_repository_has_its_own_file_witness :
  exists files,
    targetDir (snd (run target_apply noFaults targetList start)) = Some files /\
    size files = length targetList /\
    (forall R, R ∈ targetList ->
       exists data,
         property (name R)
           (this_results (snd (run target_apply noFaults targetList start)))
           = Some data /\
         files !! sqlFile (name R) = Some (fileContent data)) /\
    (Log, "Wrote " +:+ Js.ofNumber (size files) +:+ " files")
      ∈ console (snd (run target_apply noFaults targetList start)).
Proof.
  apply (every_repository_has_its_own_file target_apply noFaults targetList store tt None).
  - apply (bool_decide_unpack _). vm_compute. reflexivity.
  - vm_compute. reflexivity.
Defined.

Lemma clean_slate_witness :
  main target_apply noFaults [RepoA] start = main target_apply noFaults [RepoA] stale.
Proof.
  apply (clean_slate target_apply noFaults [RepoA] store tt).
  reflexivity.
Defined.

Lemma setup_failure_outcomes_witness :
  main target_apply rmFails [RepoA] stale
    = (1, print Log "Something went wrong"
            (print Error "Error: EPERM: operation not permitted"
               (set_targetDir (rm_remains rmFails <$> targetDir stale) stale))) /\
  (rm_remains rmFails <$> targetDir stale)
    = Some {[ "locked.repository.sql" := "-- locked" ]}.
Proof.
  split.
  - apply (proj1 (setup_failure_outcomes target_apply rmFails [RepoA] stale eq_refl)).
    reflexivity.
  - vm_compute. reflexivity.
Defined.

Lemma processing_failure_leaves_empty_directory_witness :
  fst (main target_apply noFaults [RepoA; RepoC; RepoB] stale) = 1 /\
  targetDir (snd (main target_apply noFaults [RepoA; RepoC; RepoB] stale)) = Some ∅.
Proof.
  apply (processing_failure_leaves_empty_directory target_apply noFaults
           [RepoA; RepoC; RepoB] stale
           (snd (setup noFaults stale)) "Error: thrown by the call"
           (snd (forEach [RepoA; RepoC; RepoB] (process target_apply)
                   (snd (setup noFaults stale))))).
  - vm_compute. reflexivity.
  - vm_compute. reflexivity.
Defined.

Lemma write_stops_at_first_failure_witness :
  exists s',
    write diskFull (snd (forEach [RepoA; RepoB] (process target_apply) ready))
      = (Throw "Error: ENOSPC: no space left on device", s') /\
    targetDir s'
      = Some (<["repo.b.sql" :=
                 String.substring 0 10
                   (fileContent [provenance;
                                 block "RepoB.update" ["UPDATE b SET x = 1"];
                                 block "RepoB.findAll" ["SELECT * FROM a"]])]>
                (written [("RepoA", [provenance;
                                     block "RepoA.findAll" ["SELECT * FROM a"]])] ∅)).
Proof.
  apply (write_stops_at_first_failure diskFull
           (snd (forEach [RepoA; RepoB] (process target_apply) ready))
           [("RepoA", [provenance; block "RepoA.findAll" ["SELECT * FROM a"]])]
           ("RepoB", [provenance;
                      block "RepoB.update" ["UPDATE b SET x = 1"];
                      block "RepoB.findAll" ["SELECT * FROM a"]])
           []).
  - vm_compute. reflexivity.
  - intros e He. apply list_elem_of_singleton in He. subst e. reflexivity.
  - reflexivity.
  - vm_compute. reflexivity.
Defined.

Lemma teardown_error_is_reported_witness :
  fst (run target_apply closeFails [RepoC; RepoA] start) = Throw "Error: close failed" /\
  exists before,
    console (snd (main target_apply closeFails [RepoC; RepoA] start))
      = before ++ [(Error, "Error: close failed"); (Log, "Something went wrong")].
Proof.
  apply (teardown_error_is_reported target_apply closeFails [RepoC; RepoA] start
           (snd (setup closeFails start))).
  - reflexivity.
  - vm_compute. reflexivity.
Defined.

Lemma unannotated_object_untouched_witness :
  runTargets target_apply (self (instance (bare "TagRepository"))) "TagRepository" dirty
    = (Ok [], dirty).
Proof.
  apply unannotated_object_untouched.
  intros key f Hin Hget. apply list_elem_of_singleton in Hin. subst key.
  injection Hget as <-. reflexivity.
Defined.

Lemma case_block_holds_its_statements_witness :
  exists s',
    runCase target_apply (self (instance RepoB)) "RepoB" "update" 2
      (mkQuery None []) dirty
      = (Ok [block "RepoB.update" ["UPDATE b SET x = 1"]], s') /\
    queries (this_sqlLogger s') = ["UPDATE b SET x = 1"] /\
    world s' = tt /\
    console s'
      = console dirty
          ++ [(Error, "RepoB.update" +:+ " error: " +:+ "Error: after the statement")]
          ++ [].
Proof.
  apply (case_block_holds_its_statements target_apply (self (instance RepoB))
           "RepoB" "update" 2 (mkQuery None []) dirty tt
           ["UPDATE b SET x = 1"] (Rejected "Error: after the statement")).
  - reflexivity.
  - right. now eexists.
Defined.

Lemma calls_are_blocks_plus_warnings_witness :
  length (applied (snd (run target_apply noFaults [RepoA; RepoB] start)))
    = blockCount (this_results (snd (run target_apply noFaults [RepoA; RepoB] start)))
      + warnings (console (snd (run target_apply noFaults [RepoA; RepoB] start))).
Proof.
  apply (calls_are_blocks_plus_warnings target_apply noFaults [RepoA; RepoB] store tt None).
  - apply (bool_decide_unpack _). vm_compute. reflexivity.
  - vm_compute. reflexivity.
Defined.

Lemma cases_called_in_order_witness :
  let album := mkObj 14 [("constructor", VFunction 6);
                         ("checkOwnerAccess", VFunction 5);
                         ("checkSharedAccess", VFunction 7)] in
  let s' := snd (runKey target_apply album "AccessRepository.album"
                   "checkSharedAccess" ready) in
  applied s' = applied ready ++ [mkApplication 7 14 ["uuid"]] /\
  metadata s' = metadata ready /\
  length [block "AccessRepository.album.checkSharedAccess (by id)"
            ["SELECT * FROM shared"; "SELECT * FROM partner"]] <= 1.
Proof.
  cbn zeta.
  apply (cases_called_in_order target_apply
           (mkObj 14 [("constructor", VFunction 6);
                      ("checkOwnerAccess", VFunction 5);
                      ("checkSharedAccess", VFunction 7)])
           "AccessRepository.album" "checkSharedAccess" 7
           (mkQuery (Some "by id") ["uuid"]) [] ready).
  - reflexivity.
  - reflexivity.
  - vm_compute. reflexivity.
Defined.

Lemma metadata_only_defaulted_witness :
  metadata (snd (run target_apply noFaults [RepoA] start)) !! 1 = Some [] \/
  metadata (snd (run target_apply noFaults [RepoA] start)) !! 1 = Some [mkQuery None []].
Proof.
  apply (proj2 (proj2 (metadata_only_defaulted target_apply noFaults [RepoA] start))).
  reflexivity.
Defined.

Lemma processing_stops_at_failing_repository_witness :
  exists done R rest s1,
    [RepoA; RepoC; RepoB] = done ++ R :: rest /\
    forEach done (process target_apply) ready = (Ok tt, s1) /\
    process target_apply R s1
      = (Throw "Error: thrown by the call",
         snd (forEach [RepoA; RepoC; RepoB] (process target_apply) ready)) /\
    this_results (snd (forEach [RepoA; RepoC; RepoB] (process target_apply) ready))
      = this_results s1.
Proof.
  apply (processing_stops_at_failing_repository target_apply [RepoA; RepoC; RepoB] ready).
  vm_compute. reflexivity.
Defined.

(** *** Labels and layout *)

(** C7: processing a repository invokes, in order, the cases of its own
    methods, labelled with the two parts [Repository.method], and then,
    for the composite repository [AccessRepository] only, the cases of the
    methods of each nested sub-object, labelled with the three parts
    [Repository.subObject.method]; the label of a case with a name ends
    with that name in parentheses. The sequence stored for the repository
    is the provenance line followed by the blocks of exactly these cases,
    each block headed by [-- ] and the label of its case and holding the
    statements that the call of the case issued, in the order of the
    cases; a case without statements has no block. On the composite
    repository of the scenario this gives the three blocks written out
    below. *)
Theorem composite_labels :
  (forall (World Param : Type)
          (apply : FnId -> ObjId -> list Param -> World -> World * list string * Outcome)
          (R : Repository) (s s' : @SqlGenerator.State World Param),
     process apply R s = (Ok tt, s') ->
     exists normal nested : list (Planned * list string),
       map fst normal = planned (metadata s) (self (instance R)) (name R) /\
       map fst nested =
         (if String.eqb (name R) "AccessRepository"
          then flat_map
                 (fun sub =>
                    match getOwn (instance R) sub with
                    | VObject o => planned (metadata s) o (name R +:+ "." +:+ sub)
                    | VNullish => []
                    end)
                 (keys (instance R))
          else []) /\
       Forall (issued apply) (normal ++ nested) /\
       applied s' = applied s ++ map callOf (map fst (normal ++ nested)) /\
       property (name R) (this_results s')
         = Some (provenance :: flat_map blockOf (normal ++ nested))) /\
  (forall (Param : Type) (meta : gmap FnId (list (@GenerateSqlQueries Param)))
          (this : Obj) (label : string) (p : Planned),
     p ∈ planned meta this label <->
     exists key f q,
       key ∈ getPropertyNames this /\ get this key = VFunction f /\
       q ∈ casesOf meta f /\
       p = mkPlanned
             (label +:+ "." +:+ key
                +:+ match q_name q with
                    | Some (String c n) => " (" +:+ String c n +:+ ")"
                    | _ => ""
                    end)
             f (oid this) (q_params q)) /\
  property "AccessRepository"
    (this_results (snd (process target_apply Access ready)))
  = Some [ "-- NOTE: This file is auto generated by ./sql-generator";
           "-- AccessRepository.findAll" +:+ eol +:+ "SELECT * FROM a";
           "-- AccessRepository.album.checkOwnerAccess" +:+ eol
             +:+ "SELECT * FROM album";
           "-- AccessRepository.album.checkSharedAccess (by id)" +:+ eol
             +:+ "SELECT * FROM shared" +:+ eol +:+ "SELECT * FROM partner" ] /\
  applied (snd (process target_apply Access ready))
  = [ mkApplication 1 13 []; mkApplication 5 14 []; mkApplication 7 14 ["uuid"] ].
Proof.
  split; [| split; [| split]].
  - intros World Param apply R s s' H.
    destruct (process_captured apply R s s' H)
      as (normal & nested & P1 & P2 & I & A & E & _).
    exists normal, nested. split; [exact P1 |]. split; [exact P2 |].
    split; [exact I |]. split; [exact A |].
    rewrite E. apply property_assign.
  - intros Param meta this label p. apply elem_of_planned.
  - vm_compute. reflexivity.
  - vm_compute. reflexivity.
Qed.

Lemma composite_labels_witness :
  exists normal nested : list (Planned * list string),
    map fst normal = planned (metadata ready) (self (instance Access)) (name Access) /\
    map fst nested =
      (if String.eqb (name Access) "AccessRepository"
       then flat_map
              (fun sub =>
                 match getOwn (instance Access) sub with
                 | VObject o => planned (metadata ready) o (name Access +:+ "." +:+ sub)
                 | VNullish => []
                 end)
              (keys (instance Access))
       else []) /\
    Forall (issued target_apply) (normal ++ nested) /\
    applied (snd (process target_apply Access ready))
      = applied ready ++ map callOf (map fst (normal ++ nested)) /\
    property (name Access) (this_results (snd (process target_apply Access ready)))
      = Some (provenance :: flat_map blockOf (normal ++ nested)).
Proof.
  apply (proj1 composite_labels unit string target_apply Access ready).
  vm_compute. reflexivity.
Defined.

(** C8: the content of an output file is the provenance line, then the
    blocks of the repository, each after one empty line, then one final
    end of line. In a run that completes the calls are made in the order
    of the target list, of the methods of each repository and of the cases
    of each method, and every file is that of a repository of the list and
    holds the blocks of the cases of that repository in that same order,
    the order of capture. In the end-to-end scenario the only file is
    [repo.a.sql], with the provenance line, the header [-- RepoA.findAll],
    the statement [SELECT * FROM a] and the final end of line; with two
    captured blocks the file holds them in the order of their calls, one
    empty line between them. *)
Theorem file_layout :
  (forall blocks,
     fileContent (provenance :: blocks)
       = provenance
           +:+ Js.flatten (map (String.append (eol +:+ eol)) blocks)
           +:+ eol) /\
  (forall (World Param : Type)
          (apply : FnId -> ObjId -> list Param -> World -> World * list string * Outcome)
          faults repositories meta w dir s',
     run apply faults repositories (initial meta w dir) = (Ok tt, s') ->
     exists files,
       targetDir s' = Some files /\
       applied s' = flat_map (fun R => map callOf (plannedFor meta R)) repositories /\
       forall file content,
         files !! file = Some content ->
         exists R log,
           R ∈ repositories /\ file = sqlFile (name R) /\
           map fst log = plannedFor meta R /\
           Forall (issued apply) log /\
           content =
             provenance
               +:+ Js.flatten (map (String.append (eol +:+ eol)) (flat_map blockOf log))
               +:+ eol) /\
  targetDir (snd (run target_apply noFaults [RepoA] start))
    = Some {[ "repo.a.sql" :=
                "-- NOTE: This file is auto generated by ./sql-generator"
                  +:+ eol +:+ eol
                  +:+ "-- RepoA.findAll" +:+ eol
                  +:+ "SELECT * FROM a" +:+ eol ]} /\
  targetDir (snd (run target_apply noFaults [RepoB] start))
    = Some {[ "repo.b.sql" :=
                "-- NOTE: This file is auto generated by ./sql-generator"
                  +:+ eol +:+ eol
                  +:+ "-- RepoB.update" +:+ eol
                  +:+ "UPDATE b SET x = 1" +:+ eol +:+ eol
                  +:+ "-- RepoB.findAll" +:+ eol
                  +:+ "SELECT * FROM a" +:+ eol ]}.
Proof.
  split; [exact fileContent_layout |]. split; [| split].
  - intros World Param apply faults repositories meta w dir s' H.
    exact (run_captured apply faults repositories meta w dir s' H).
  - vm_compute. reflexivity.
  - vm_compute. reflexivity.
Qed.

Lemma file_layout_witness :
  exists files,
    targetDir (snd (run target_apply noFaults [RepoA; RepoB] start)) = Some files /\
    applied (snd (run target_apply noFaults [RepoA; RepoB] start))
      = flat_map (fun R => map callOf (plannedFor store R)) [RepoA; RepoB] /\
    forall file content,
      files !! file = Some content ->
      exists R log,
        R ∈ [RepoA; RepoB] /\ file = sqlFile (name R) /\
        map fst log = plannedFor store R /\
        Forall (issued target_apply) log /\
        content =
          provenance
            +:+ Js.flatten (map (String.append (eol +:+ eol)) (flat_map blockOf log))
            +:+ eol.
Proof.
  apply (proj1 (proj2 file_layout) unit string target_apply noFaults
           [RepoA; RepoB] store tt None).
  vm_compute. reflexivity.
Defined.

End Examples.
